(** * Blackstar CMS JavaScript client: request shaping and collection lookups

    A shallow embedding of [blackstar.js]: the [Client] constructor with its
    URL normalisation, [requestKind], [requestToUrl], the synchronous prefix
    of [get], and [enrichCollectionWithByMethods] with the three lookups it
    installs on a response array.  The other methods of the client, with
    [blackstarFetch] in full and [docCookies.setItem], are in [Api]; the
    constructor of [JsdocOptions] comes after it.

    Conventions of the embedding.
    - A JavaScript string is a [string]; its characters are code units below
      256.
    - A JavaScript object read through its own enumerable keys is a
      [gmap string JsVal].
    - A Number is modelled only where it is an integer ([JsNumber z]); the
      decimal rendering used for it is the one [Number::toString] gives for
      integers of magnitude below 10^21.
    - A call that can throw returns a [Completion].
    - The response array is the one object the code writes to, so it lives in
      a store addressed by references; the functions the code installs on it
      are closures over that reference. *)

From Stdlib Require Import ZArith Ascii String List Bool.
From stdpp Require Import base option list strings pretty gmap fin_maps.

Local Open Scope Z_scope.

(** ** JavaScript values *)

Module Js.

(** Primitive values. *)
Inductive JsPrim : Type :=
  | JsUndefined
  | JsNull
  | JsBoolean (b : bool)
  | JsNumber (n : Z)
  | JsString (s : string).

(** A value held in a property: a primitive or an array of primitives. *)
Inductive JsVal : Type :=
  | Prim (p : JsPrim)
  | Arr (elements : list JsPrim).

(** The language types of the primitives (ECMAScript [Type(x)]). *)
Inductive JsType : Type :=
  | TUndefined | TNull | TBoolean | TNumber | TString.

Definition typeOf (p : JsPrim) : JsType :=
  match p with
  | JsUndefined => TUndefined
  | JsNull => TNull
  | JsBoolean _ => TBoolean
  | JsNumber _ => TNumber
  | JsString _ => TString
  end.

#[global] Instance JsPrim_eq_dec : EqDecision JsPrim.
Proof. solve_decision. Defined.
#[global] Instance JsVal_eq_dec : EqDecision JsVal.
Proof. solve_decision. Defined.
#[global] Instance JsType_eq_dec : EqDecision JsType.
Proof. solve_decision. Defined.

(** [x === y] on primitives: no conversion, values of different types are
    never equal. *)
Definition strictEquals (x y : JsPrim) : bool :=
  match x, y with
  | JsUndefined, JsUndefined => true
  | JsNull, JsNull => true
  | JsBoolean a, JsBoolean b => Bool.eqb a b
  | JsNumber a, JsNumber b => Z.eqb a b
  | JsString a, JsString b => String.eqb a b
  | _, _ => false
  end.

(** [v === p] where [v] was read from a property and [p] is a primitive: an
    array is an object, and an object is never strictly equal to a
    primitive. *)
Definition strictEqualsVal (v : JsVal) (p : JsPrim) : bool :=
  match v with
  | Prim q => strictEquals q p
  | Arr _ => false
  end.

(** [ToString] on primitives. *)
Definition toString (p : JsPrim) : string :=
  match p with
  | JsUndefined => "undefined"
  | JsNull => "null"
  | JsBoolean true => "true"
  | JsBoolean false => "false"
  | JsNumber n => pretty n
  | JsString s => s
  end.

(** Errors the modelled code can raise: [new Error(message)] and the
    engine's [TypeError] (its message is engine specific and not kept). *)
Inductive JsError : Type :=
  | Error (message : string)
  | TypeError.

(** The outcome of a call: a value, or a thrown error. *)
Inductive Completion (A : Type) : Type :=
  | Normal (a : A)
  | Throw (e : JsError).
Arguments Normal {A} a.
Arguments Throw {A} e.

(** Sequencing: a thrown error skips the rest. *)
#[global] Instance Completion_bind : MBind Completion := λ A B k c,
  match c with
  | Normal a => k a
  | Throw e => Throw e
  end.

(** Property read [o.key] on an object: [undefined] when the key is absent. *)
Definition getProp (o : gmap string JsVal) (key : string) : JsVal :=
  default (Prim JsUndefined) (o !! key).

(** [Object.keys(o)]. *)
Definition Object_keys (o : gmap string JsVal) : list string :=
  (map_to_list o).*1.

(** [Array.prototype.join]: the accumulator loop of the language
    definition. [undefined] and [null] elements contribute the empty
    string. *)
Definition joinNext (element : JsPrim) : string :=
  match element with
  | JsUndefined | JsNull => ""
  | _ => toString element
  end.

Fixpoint joinLoop (sep R : string) (k : nat) (elements : list JsPrim) : string :=
  match elements with
  | [] => R
  | element :: rest =>
      let R := if (0 <? k)%nat then R +:+ sep else R in
      joinLoop sep (R +:+ joinNext element) (S k) rest
  end.

(** [v.join(sep)]: only an array has a [join] method; on anything else the
    call throws a [TypeError]. *)
Definition join (v : JsVal) (sep : string) : Completion string :=
  match v with
  | Arr elements => Normal (joinLoop sep "" 0 elements)
  | Prim _ => Throw TypeError
  end.

End Js.
Export Js.

(** ** Regular expressions

    The fragment of the pattern language that [/.+\/$/] uses. *)

Module RegExp.

Inductive Atom : Type :=
  | Dot
  | Lit (c : ascii).

Inductive Term : Type :=
  | One (a : Atom)
  | OneOrMore (a : Atom)
  | EndOfInput.

(** Line terminators, which [.] does not match; of the four the language
    names, line feed and carriage return are code units below 256. *)
Definition isLineTerminator (c : ascii) : bool :=
  Ascii.eqb c "010"%char || Ascii.eqb c "013"%char.

Definition atomMatches (a : Atom) (c : ascii) : bool :=
  match a with
  | Dot => negb (isLineTerminator c)
  | Lit d => Ascii.eqb c d
  end.

(** Does the pattern match a prefix of [s], starting at its first
    character?  [a+] is greedy: it first tries to take one more. *)
Fixpoint matchHere (p : list Term) (s : string) {struct p} : bool :=
  match p with
  | [] => true
  | One a :: p' =>
      match s with
      | String c s' => atomMatches a c && matchHere p' s'
      | EmptyString => false
      end
  | OneOrMore a :: p' =>
      (fix more (s : string) : bool :=
         match s with
         | String c s' => atomMatches a c && (more s' || matchHere p' s')
         | EmptyString => false
         end) s
  | EndOfInput :: p' =>
      match s with
      | EmptyString => matchHere p' s
      | String _ _ => false
      end
  end.

(** [pattern.test(s)]: a match may start at any index of [s]. *)
Fixpoint test (p : list Term) (s : string) : bool :=
  matchHere p s ||
  match s with
  | String _ s' => test p s'
  | EmptyString => false
  end.

End RegExp.

(** ** The client *)

Definition endsWithForwardSlash (input : string) : bool :=
  RegExp.test
    [RegExp.OneOrMore RegExp.Dot; RegExp.One (RegExp.Lit "/"); RegExp.EndOfInput]
    input.

(** The options object; [authCallback] is a function and is not kept. *)
Record Options : Type := {
  showEditControls : bool;
  token : option string
}.

Record ClientObject : Type := {
  serverUrl : string;
  apiUrl : string;
  options : Options
}.

(** [new Client(url, options)]. *)
Definition Client (url : string) (opts : option Options) : ClientObject :=
  let serverUrl := url +:+ (if endsWithForwardSlash url then "" else "/") in
  let apiUrl := serverUrl +:+ "api/content/" in
  let options :=
    match opts with
    | Some o => o
    | None => {| showEditControls := false; token := None |}
    end in
  {| serverUrl := serverUrl;
     apiUrl := apiUrl;
     options := {| showEditControls := showEditControls options || false;
                   token := token options |} |}.

(** ** Classifying a request and building its URL *)

(** The local helper [isRequestKind] of [requestKind]. *)
Definition isRequestKind (request : gmap string JsVal) (kind : string) : bool :=
  existsb (λ item, String.eqb item kind) (Object_keys request).

Definition isIdsRequest (request : gmap string JsVal) : bool :=
  isRequestKind request "ids".
Definition isNamesRequest (request : gmap string JsVal) : bool :=
  isRequestKind request "names".
Definition isTagsRequest (request : gmap string JsVal) : bool :=
  isRequestKind request "tags".

Definition requestKindError : JsError :=
  Error "A request must include exactly one of the following collections: ids, names, tags".

Definition requestKind (request : gmap string JsVal) : Completion string :=
  if isIdsRequest request && negb (isNamesRequest request) && negb (isTagsRequest request)
  then Normal "ids"
  else if negb (isIdsRequest request) && isNamesRequest request && negb (isTagsRequest request)
  then Normal "names"
  else if negb (isIdsRequest request) && negb (isNamesRequest request) && isTagsRequest request
  then Normal "tags"
  else Throw requestKindError.

Definition requestToUrl (this : ClientObject) (request : gmap string JsVal)
  : Completion string :=
  kind ← requestKind request;
  if String.eqb kind "ids" then
    path ← join (getProp request "ids") "/";
    Normal (apiUrl this +:+ "byids/" +:+ path)
  else if String.eqb kind "names" then
    path ← join (getProp request "names") "/";
    Normal (apiUrl this +:+ "bynames/" +:+ path)
  else if String.eqb kind "tags" then
    path ← join (getProp request "tags") "/";
    Normal (apiUrl this +:+ "bytags/" +:+ path)
  else
    kind' ← requestKind request;
    Throw (Error ("Unknown request kind: " +:+ kind')).

(** ** The transport

    [fetch] is the one way out to the network; the world records the calls
    made to it, in order. *)

Record FetchCall : Type := {
  fetch_url : string;
  fetch_authorization : option string;
  fetch_credentials : string
}.

(** What a call of [fetch] hands back: the promise of the response to that
    call. *)
Inductive Promise : Type :=
  | ResponseTo (call : FetchCall).

(** [blackstarFetch(url)] with no options argument: the [Authorization]
    header is set when a non-empty token was supplied, credentials default
    to ['include'], and [fetch] is called once.  (The cookie the wrapper
    also stores is not part of this model.) *)
Definition blackstarFetch (this : ClientObject) (url : string)
    (network : list FetchCall) : Promise * list FetchCall :=
  let tokenSupplied :=
    match token (options this) with
    | Some t => (0 <? String.length t)%nat
    | None => false
    end in
  let authorization :=
    if tokenSupplied
    then (λ t, "Bearer " +:+ t) <$> token (options this)
    else None in
  let call := {| fetch_url := url;
                 fetch_authorization := authorization;
                 fetch_credentials := "include" |} in
  (ResponseTo call, network ++ [call]).

(** [get(request)] up to the point where it returns its promise: the URL is
    computed first, and a throw there leaves the function at once. *)
Definition get (this : ClientObject) (request : gmap string JsVal)
    (network : list FetchCall) : Completion Promise * list FetchCall :=
  match requestToUrl this request with
  | Throw e => (Throw e, network)
  | Normal url =>
      let '(promise, network') := blackstarFetch this url network in
      (Normal promise, network')
  end.

(** ** Response arrays and the lookups installed on them *)

(** A reference to an object in the store. *)
Abbreviation Ref := nat (only parsing).

(** The three functions [enrichCollectionWithByMethods] creates.  Each one
    closes over the variable [data], the reference it was given. *)
Inductive Closure : Type :=
  | ByName (data : Ref)
  | ById (data : Ref)
  | ByTag (data : Ref).

(** An array of chunk objects, with the named properties set on it. *)
Record ArrayObject : Type := {
  elements : list (gmap string JsVal);
  members : gmap string Closure
}.

(** The store.  A reference without an entry stands for a value that is no
    object ([undefined], [null], a primitive). *)
Abbreviation Store := (gmap Ref ArrayObject) (only parsing).

(** What a lookup hands back: [undefined], one chunk, or a fresh array. *)
Inductive JsResult : Type :=
  | RUndefined
  | RObject (o : gmap string JsVal)
  | RArray (l : list (gmap string JsVal)).

(** [Array.prototype.find], [filter] and [some], for a callback that may
    throw: elements are visited in index order and a throw ends the walk. *)
Fixpoint Array_find {A} (callback : A → Completion bool) (l : list A)
  : Completion (option A) :=
  match l with
  | [] => Normal None
  | item :: rest =>
      b ← callback item;
      if b : bool then Normal (Some item) else Array_find callback rest
  end.

Fixpoint Array_filter {A} (callback : A → Completion bool) (l : list A)
  : Completion (list A) :=
  match l with
  | [] => Normal []
  | item :: rest =>
      b ← callback item;
      kept ← Array_filter callback rest;
      Normal (if b : bool then item :: kept else kept)
  end.

Fixpoint Array_some {A} (callback : A → Completion bool) (l : list A)
  : Completion bool :=
  match l with
  | [] => Normal false
  | item :: rest =>
      b ← callback item;
      if b : bool then Normal true else Array_some callback rest
  end.

(** [v.some(callback)]: a [TypeError] unless [v] is an array. *)
Definition some (v : JsVal) (callback : JsPrim → Completion bool) : Completion bool :=
  match v with
  | Arr l => Array_some callback l
  | Prim _ => Throw TypeError
  end.

Definition findResult (r : option (gmap string JsVal)) : JsResult :=
  match r with
  | Some o => RObject o
  | None => RUndefined
  end.

(** The bodies of the three functions, run against the array that [data]
    refers to at the time of the call.  The argument is a primitive. *)
Definition byName (σ : Store) (data : Ref) (name : JsPrim) : Completion JsResult :=
  match σ !! data with
  | None => Throw TypeError
  | Some a =>
      r ← Array_find (λ item, Normal (strictEqualsVal (getProp item "name") name))
                     (elements a);
      Normal (findResult r)
  end.

Definition byId (σ : Store) (data : Ref) (id : JsPrim) : Completion JsResult :=
  match σ !! data with
  | None => Throw TypeError
  | Some a =>
      r ← Array_find (λ item, Normal (strictEqualsVal (getProp item "id") id))
                     (elements a);
      Normal (findResult r)
  end.

Definition byTag (σ : Store) (data : Ref) (tag : JsPrim) : Completion JsResult :=
  match σ !! data with
  | None => Throw TypeError
  | Some a =>
      r ← Array_filter
            (λ item, some (getProp item "tags") (λ t, Normal (strictEquals t tag)))
            (elements a);
      Normal (RArray r)
  end.

Definition call (σ : Store) (f : Closure) (arg : JsPrim) : Completion JsResult :=
  match f with
  | ByName data => byName σ data arg
  | ById data => byId σ data arg
  | ByTag data => byTag σ data arg
  end.

(** The method call [obj.name(arg)]. *)
Definition invoke (σ : Store) (obj : Ref) (name : string) (arg : JsPrim)
  : Completion JsResult :=
  match σ !! obj with
  | None => Throw TypeError
  | Some a =>
      match members a !! name with
      | None => Throw TypeError
      | Some f => call σ f arg
      end
  end.

(** The assignment [obj.key = f]. *)
Definition setMember (obj : Ref) (key : string) (f : Closure) (σ : Store)
  : Completion Store :=
  match σ !! obj with
  | None => Throw TypeError
  | Some a =>
      Normal (<[obj := {| elements := elements a;
                          members := <[key := f]> (members a) |}]> σ)
  end.

Definition enrichCollectionWithByMethods (data : Ref) (σ : Store)
  : Completion (Ref * Store) :=
  σ ← setMember data "byName" (ByName data) σ;
  σ ← setMember data "byId" (ById data) σ;
  σ ← setMember data "byTag" (ByTag data) σ;
  Normal (data, σ).

(** The collection of the test suite. *)
Definition chunk (id : Z) (tags : list string) (name value : string)
  : gmap string JsVal :=
  {[ "id" := Prim (JsNumber id);
     "tags" := Arr (JsString <$> tags);
     "name" := Prim (JsString name);
     "value" := Prim (JsString value) ]}.

Definition indexPage : list (gmap string JsVal) :=
  [ chunk 6 ["index-page"] "index-heading" "This is the page heading";
    chunk 7 ["index-page"] "index-title" "This is a title";
    chunk 8 ["index-page"] "index-content" "<p>The <b>Seebeck effect</b> is the conversion of ";
    chunk 9 ["index-page"] "index-footer" "This is a footer" ].

(** A store holding that array, freshly parsed, at reference 0. *)
Definition parsed : Store := {[ 0%nat := {| elements := indexPage; members := ∅ |} ]}.

Definition results : Store :=
  match enrichCollectionWithByMethods 0%nat parsed with
  | Normal (_, σ) => σ
  | Throw _ => parsed
  end.

(** ** Vocabulary of the statements *)

(** Every element after the first is preceded by the separator. *)
Fixpoint separated (sep : string) (l : list string) : string :=
  match l with
  | [] => ""
  | x :: rest => sep +:+ x +:+ separated sep rest
  end.

(** The keys the classifier recognises, and those of them a request has. *)
Definition recognised : list string := ["ids"; "names"; "tags"].

Definition presentKeys (request : gmap string JsVal) : list string :=
  filter (λ key, is_Some (request !! key)) recognised.

(** The queries of the data model: one recognised key, holding a sequence of
    integer identifiers or a sequence of strings. *)
Inductive Query : Type :=
  | Ids (ids : list Z)
  | Names (names : list string)
  | Tags (tags : list string).

Definition queryKey (q : Query) : string :=
  match q with
  | Ids _ => "ids"
  | Names _ => "names"
  | Tags _ => "tags"
  end.

Definition queryValue (q : Query) : JsVal :=
  match q with
  | Ids ids => Arr (JsNumber <$> ids)
  | Names names => Arr (JsString <$> names)
  | Tags tags => Arr (JsString <$> tags)
  end.

Definition modeSegment (q : Query) : string :=
  match q with
  | Ids _ => "byids/"
  | Names _ => "bynames/"
  | Tags _ => "bytags/"
  end.

(** The path elements: identifiers as decimal strings, names and tags as
    they are. *)
Definition pathElements (q : Query) : list string :=
  match q with
  | Ids ids => pretty <$> ids
  | Names names => names
  | Tags tags => tags
  end.

(** Identifiers are integers a Number holds exactly
    ([Number.isSafeInteger]). *)
Definition isSafeInteger (n : Z) : Prop := - (2 ^ 53 - 1) ≤ n ≤ 2 ^ 53 - 1.

Definition queryIds (q : Query) : list Z :=
  match q with
  | Ids ids => ids
  | _ => []
  end.

(** The request object [request] is the query [q]: of the recognised keys it
    has the one of [q], holding the array of [q]. *)
Definition denotes (request : gmap string JsVal) (q : Query) : Prop :=
  presentKeys request = [queryKey q]
  ∧ request !! queryKey q = Some (queryValue q)
  ∧ Forall isSafeInteger (queryIds q).

(** The array object after the three assignments. *)
Definition installed (data : Ref) (a : ArrayObject) : ArrayObject :=
  {| elements := elements a;
     members := <[ "byTag" := ByTag data ]>
                  (<[ "byId" := ById data ]>
                     (<[ "byName" := ByName data ]> (members a))) |}.

(** [c] is the first chunk of [l] whose [field] holds the primitive [v]. *)
Definition firstWith (field : string) (v : JsPrim)
    (l : list (gmap string JsVal)) (c : gmap string JsVal) : Prop :=
  ∃ pre post, l = pre ++ c :: post
    ∧ getProp c field = Prim v
    ∧ ∀ x, x ∈ pre → getProp x field ≠ Prim v.

(** No chunk of [l] holds [v] in [field]. *)
Definition noneWith (field : string) (v : JsPrim)
    (l : list (gmap string JsVal)) : Prop :=
  ∀ x, x ∈ l → getProp x field ≠ Prim v.

(** The chunk's [tags] is an array. *)
Definition hasTags (item : gmap string JsVal) : Prop :=
  ∃ l, getProp item "tags" = Arr l.

(** The chunk's [tags] is an array that contains [tag]. *)
Definition taggedWith (tag : JsPrim) (item : gmap string JsVal) : Prop :=
  match getProp item "tags" with
  | Arr l => tag ∈ l
  | Prim _ => False
  end.

#[global] Instance taggedWith_dec tag item : Decision (taggedWith tag item).
Proof. unfold taggedWith. destruct (getProp item "tags"); apply _. Defined.

(** [s] ends with the character ["/"]. *)
Definition endsWithSlash (s : string) : Prop := ∃ base, s = base +:+ "/".

(** [c] is the first element of [l] that satisfies [f]. *)
Definition firstSuch {A} (f : A → bool) (l : list A) (c : A) : Prop :=
  ∃ pre post, l = pre ++ c :: post ∧ f c = true ∧ ∀ x, x ∈ pre → f x = false.

(** ** Further vocabulary *)

(** [s] holds no ["/"]. *)
Fixpoint noSlash (s : string) : bool :=
  match s with
  | EmptyString => true
  | String c s' => negb (Ascii.eqb c "/") && noSlash s'
  end.

#[global] Instance hasTags_dec item : Decision (hasTags item).
Proof.
  unfold hasTags. destruct (getProp item "tags") as [p|l].
  - right. by intros [? [=]].
  - left. by exists l.
Defined.

(** A query whose URL can be read back: it has at least one element, and
    no element holds the separator. *)
Definition readable (q : Query) : Prop :=
  pathElements q ≠ [] ∧ Forall (λ s, noSlash s = true) (pathElements q).

(** ** The rest of the client

    The other methods of [Client], with [blackstarFetch] in full: the
    options object it is given, the cookie it stores, and the global
    [document] it needs for that. *)

Module Api.

(** *** Strings *)

(** [s.slice(start, stop)]: a negative index counts from the end. *)
Definition slice (s : string) (start stop : Z) : string :=
  let len := Z.of_nat (String.length s) in
  let from := if start <? 0 then Z.max (len + start) 0 else Z.min start len in
  let to := if stop <? 0 then Z.max (len + stop) 0 else Z.min stop len in
  String.substring (Z.to_nat from) (Z.to_nat (Z.max (to - from) 0)) s.

(** The text of a value on the right of [string + value]: an array turns
    into its elements joined with [","]. *)
Definition toStringVal (v : JsVal) : string :=
  match v with
  | Prim p => toString p
  | Arr l => joinLoop "," "" 0 l
  end.

(** The length of the match of a pattern at the start of [s], if there is
    one; [a+] takes as many characters as it can and gives back as few as it
    must. *)
Fixpoint matchLength (p : list RegExp.Term) (s : string) {struct p} : option nat :=
  match p with
  | [] => Some 0%nat
  | RegExp.One a :: p' =>
      match s with
      | String c s' =>
          if RegExp.atomMatches a c then S <$> matchLength p' s' else None
      | EmptyString => None
      end
  | RegExp.OneOrMore a :: p' =>
      (fix more (s : string) : option nat :=
         match s with
         | String c s' =>
             if RegExp.atomMatches a c
             then match more s' with
                  | Some n => Some (S n)
                  | None => S <$> matchLength p' s'
                  end
             else None
         | EmptyString => None
         end) s
  | RegExp.EndOfInput :: p' =>
      match s with
      | EmptyString => matchLength p' s
      | String _ _ => None
      end
  end.

(** [s.replace(pattern, replacement)] for a pattern with the [g] flag and a
    replacement without [$]: every match, found from left to right, gives
    way to the replacement.  [skip] counts the characters of the current
    match still to be dropped; after an empty match the search moves on by
    one character. *)
Fixpoint replaceFrom (p : list RegExp.Term) (replacement : string)
    (skip : nat) (s : string) : string :=
  match skip with
  | S k =>
      match s with
      | String _ s' => replaceFrom p replacement k s'
      | EmptyString => ""
      end
  | O =>
      match matchLength p s with
      | Some (S k) =>
          replacement +:+
          match s with
          | String _ s' => replaceFrom p replacement k s'
          | EmptyString => ""
          end
      | Some O =>
          replacement +:+
          match s with
          | String c s' => String c (replaceFrom p replacement 0 s')
          | EmptyString => ""
          end
      | None =>
          match s with
          | String c s' => String c (replaceFrom p replacement 0 s')
          | EmptyString => ""
          end
      end
  end.

Definition replace (s : string) (p : list RegExp.Term) (replacement : string)
  : string :=
  replaceFrom p replacement 0 s.

(** *** [encodeURIComponent], for code units below 256 *)

Definition isAlphaNumeric (c : ascii) : bool :=
  let n := N_of_ascii c in
  ((48 <=? n) && (n <=? 57) || (65 <=? n) && (n <=? 90)
   || (97 <=? n) && (n <=? 122))%N.

(** The characters that are not escaped: letters, digits and
    [- _ . ! ~ * ' ( )]. *)
Definition unreserved (c : ascii) : bool :=
  isAlphaNumeric c
  || existsb (Ascii.eqb c) ["-"; "_"; "."; "!"; "~"; "*"; "'"; "("; ")"]%char.

Definition hexDigit (n : N) : ascii :=
  match n with
  | 0 => "0" | 1 => "1" | 2 => "2" | 3 => "3" | 4 => "4" | 5 => "5"
  | 6 => "6" | 7 => "7" | 8 => "8" | 9 => "9" | 10 => "A" | 11 => "B"
  | 12 => "C" | 13 => "D" | 14 => "E" | _ => "F"
  end%char%N.

Definition percent (byte : N) : string :=
  String "%" (String (hexDigit (byte / 16)) (String (hexDigit (byte mod 16)) "")).

(** One code unit: itself when unreserved, else its UTF-8 bytes, each as
    [%XX]. *)
Definition encodeUnit (c : ascii) : string :=
  let n := N_of_ascii c in
  if unreserved c then String c ""
  else if (n <? 128)%N then percent n
  else percent (192 + n / 64) +:+ percent (128 + n mod 64).

Fixpoint encodeURIComponent (s : string) : string :=
  match s with
  | EmptyString => ""
  | String c s' => encodeUnit c +:+ encodeURIComponent s'
  end.

(** *** [docCookies.setItem] *)

(** Upper case of a letter [a]-[z]; with the flag [i] two characters match
    when their upper cases are the same, and no character from 128 on
    matches an ASCII one. *)
Definition toUpperCase (c : ascii) : ascii :=
  let n := N_of_ascii c in
  if ((97 <=? n) && (n <=? 122))%N then ascii_of_N (n - 32) else c.

Fixpoint upperCase (s : string) : string :=
  match s with
  | EmptyString => ""
  | String c s' => String (toUpperCase c) (upperCase s')
  end.

(** [/^(?:expires|max\-age|path|domain|secure)$/i.test(sKey)] *)
Definition isAttributeName (sKey : string) : bool :=
  existsb (λ word, String.eqb (upperCase sKey) (upperCase word))
    ["expires"; "max-age"; "path"; "domain"; "secure"].

(** The argument [vEnd]: [undefined], a Number (an integer or [Infinity]),
    a String, or a Date given by its [toUTCString()]. *)
Inductive Expiry : Type :=
  | NoExpiry
  | MaxAge (seconds : Z)
  | Forever
  | ExpiresString (s : string)
  | ExpiresDate (utc : string).

Definition sExpires (vEnd : Expiry) : string :=
  match vEnd with
  | NoExpiry => ""
  | MaxAge seconds => if seconds =? 0 then "" else "; max-age=" +:+ pretty seconds
  | Forever => "; expires=Fri, 31 Dec 9999 23:59:59 GMT"
  | ExpiresString s => if String.eqb s "" then "" else "; expires=" +:+ s
  | ExpiresDate utc => "; expires=" +:+ utc
  end.

(** [x ? prefix + x : ""] for an optional string: [undefined] and the empty
    string are both false. *)
Definition attribute (prefix : string) (x : option string) : string :=
  match x with
  | Some s => if String.eqb s "" then "" else prefix +:+ s
  | None => ""
  end.

(** How a call that touches [document] ends. *)
Inductive Ending (A : Type) : Type :=
  | Returns (a : A)
  | ThrowsReferenceError.
Arguments Returns {A} a.
Arguments ThrowsReferenceError {A}.

(** The cookies: [None] where there is no global [document]; otherwise the
    strings assigned to [document.cookie] so far, oldest first. *)
Definition setItem (sKey sValue : string) (vEnd : Expiry)
    (sPath sDomain : option string) (bSecure : bool)
    (cookie : option (list string)) : Ending bool * option (list string) :=
  if String.eqb sKey "" || isAttributeName sKey then (Returns false, cookie)
  else
    match cookie with
    | None => (ThrowsReferenceError, cookie)
    | Some written =>
        (Returns true,
         Some (written ++
               [encodeURIComponent sKey +:+ "=" +:+ encodeURIComponent sValue
                  +:+ sExpires vEnd
                  +:+ attribute "; domain=" sDomain
                  +:+ attribute "; path=" sPath
                  +:+ (if bSecure then "; secure" else "")]))
    end.

(** *** The transport, in full *)

Record File : Type := {
  file_name : string;
  file_type : string;
  file_bytes : string
}.

Inductive FormValue : Type :=
  | FormFile (file : File)
  | FormText (text : string).

(** A request body: the text [JSON.stringify(data)] of an object, kept as
    the object, or a [FormData] with its entries in the order appended. *)
Inductive Body : Type :=
  | Json (data : gmap string JsVal)
  | Form (entries : list (string * FormValue)).

(** The options object handed to [blackstarFetch] and on to [fetch]; a
    property that is not set is [None]. *)
Record RequestInit : Type := {
  method : option string;
  body : option Body;
  headers : option (gmap string string);
  credentials : option string
}.

Record Browser : Type := {
  fetched : list (string * RequestInit);
  cookies : option (list string)
}.

Definition tokenSupplied (this : ClientObject) : bool :=
  match token (options this) with
  | Some t => (0 <? String.length t)%nat
  | None => false
  end.

(** [blackstarFetch(url, options)] up to the call of [fetch]: what it
    returns is the promise of the response to the request it made. *)
Definition blackstarFetch (this : ClientObject) (url : string)
    (opts : option RequestInit) (w : Browser)
  : Ending (string * RequestInit) * Browser :=
  let opts := default {| method := None; body := None; headers := None;
                         credentials := None |} opts in
  let hdrs := default ∅ (headers opts) in
  let '(hdrs, stored) :=
    match token (options this) with
    | Some t =>
        if tokenSupplied this
        then (<[ "Authorization" := "Bearer " +:+ t ]> hdrs,
              setItem "t" t NoExpiry None None false (cookies w))
        else (hdrs, (Returns false, cookies w))
    | None => (hdrs, (Returns false, cookies w))
    end in
  match stored with
  | (ThrowsReferenceError, _) => (ThrowsReferenceError, w)
  | (Returns _, cookie) =>
      let creds :=
        match credentials opts with
        | Some c => if String.eqb c "" then "include" else c
        | None => "include"
        end in
      let init := {| method := method opts; body := body opts;
                     headers := Some hdrs; credentials := Some creds |} in
      (Returns (url, init),
       {| fetched := fetched w ++ [(url, init)]; cookies := cookie |})
  end.

Definition jsonHeaders : gmap string string :=
  {[ "Content-Type" := "application/json" ]}.

Definition post (this : ClientObject) (url : string) (data : gmap string JsVal)
    (w : Browser) :=
  blackstarFetch this url
    (Some {| method := Some "POST"; body := Some (Json data);
             headers := Some jsonHeaders; credentials := None |}) w.

Definition getAll (this : ClientObject) (w : Browser) :=
  blackstarFetch this (slice (apiUrl this) 0 (-1)) None w.

Definition getAllTags (this : ClientObject) (w : Browser) :=
  blackstarFetch this (serverUrl this +:+ "api/tags") None w.

Definition update (this : ClientObject) (chunk : gmap string JsVal) (w : Browser) :=
  post this (apiUrl this +:+ toStringVal (getProp chunk "id")) chunk w.

Definition create (this : ClientObject) (chunk : gmap string JsVal) (w : Browser) :=
  post this
    (replace (apiUrl this) [RegExp.One (RegExp.Lit "/"); RegExp.EndOfInput] "")
    chunk w.

Definition delete (this : ClientObject) (id : JsVal) (w : Browser) :=
  blackstarFetch this (apiUrl this +:+ toStringVal id)
    (Some {| method := Some "DELETE"; body := None;
             headers := Some jsonHeaders; credentials := None |}) w.

Definition adminSearch (this : ClientObject) (query : string) (w : Browser) :=
  blackstarFetch this (serverUrl this +:+ "api/adminSearch/" +:+ query) None w.

Definition mediaSearch (this : ClientObject) (query : string) (w : Browser) :=
  blackstarFetch this (serverUrl this +:+ "api/mediaSearch/" +:+ query) None w.

(** The loop of [createMedia]: three entries for the file at index [i]. *)
Fixpoint appendFiles (i : nat) (files : list File)
    (data : list (string * FormValue)) : list (string * FormValue) :=
  match files with
  | [] => data
  | file :: rest =>
      appendFiles (S i) rest
        (data ++ [(pretty i +:+ "file", FormFile file);
                  (pretty i +:+ "filename", FormText (file_name file));
                  (pretty i +:+ "type", FormText (file_type file))])
  end.

Definition createMedia (this : ClientObject) (files : list File) (w : Browser) :=
  let data := appendFiles 0 files [] in
  blackstarFetch this (serverUrl this +:+ "api/media")
    (Some {| method := Some "POST"; body := Some (Form data);
             headers := None; credentials := None |}) w.

Definition deleteMedia (this : ClientObject) (hash : string) (w : Browser) :=
  blackstarFetch this (serverUrl this +:+ "api/media/" +:+ hash)
    (Some {| method := Some "DELETE"; body := None;
             headers := Some jsonHeaders; credentials := None |}) w.

Definition urlFor (this : ClientObject) (chunk : gmap string JsVal) : string :=
  serverUrl this +:+ "chunk/" +:+ toStringVal (getProp chunk "id").

End Api.

(** A browser page on which nothing was fetched and no cookie written. *)
Definition page : Api.Browser := {| Api.fetched := []; Api.cookies := Some [] |}.

(** A process without [document], such as the one the tests run in. *)
Definition node : Api.Browser := {| Api.fetched := []; Api.cookies := None |}.

(** A document exists whenever a token was supplied: the one case in which
    [blackstarFetch] needs it. *)
Definition canStoreToken (this : ClientObject) (w : Api.Browser) : Prop :=
  Api.tokenSupplied this = true → is_Some (Api.cookies w).

(** A client built with a token. *)
Definition withToken (url t : string) : ClientObject :=
  Client url (Some {| showEditControls := false; token := Some t |}).

(** The headers the caller gave, and the options object as [fetch] gets it
    once the headers are [hdrs]. *)
Definition givenHeaders (opts : option Api.RequestInit) : gmap string string :=
  default ∅ (opts ≫= Api.headers).

Definition sent (opts : option Api.RequestInit) (hdrs : gmap string string)
  : Api.RequestInit :=
  {| Api.method := opts ≫= Api.method;
     Api.body := opts ≫= Api.body;
     Api.headers := Some hdrs;
     Api.credentials :=
       Some (match opts ≫= Api.credentials with
             | Some c => if String.eqb c "" then "include" else c
             | None => "include"
             end) |}.

(** The three entries [createMedia] appends for the file at index [i]. *)
Definition fileEntries (i : nat) (file : Api.File) : list (string * Api.FormValue) :=
  [(pretty i +:+ "file", Api.FormFile file);
   (pretty i +:+ "filename", Api.FormText (Api.file_name file));
   (pretty i +:+ "type", Api.FormText (Api.file_type file))].

(** Every character of [s] satisfies [P]. *)
Fixpoint allChars (P : ascii → bool) (s : string) : bool :=
  match s with
  | EmptyString => true
  | String c s' => P c && allChars P s'
  end.

(** The characters [encodeURIComponent] lets through or produces. *)
Definition cookieSafe (c : ascii) : bool := Api.unreserved c || Ascii.eqb c "%".

(** [setItem] refuses the key. *)
Definition refused (sKey : string) : Prop :=
  sKey = "" ∨ Api.upperCase sKey ∈ ["EXPIRES"; "MAX-AGE"; "PATH"; "DOMAIN"; "SECURE"].

(** ** The options of the documentation wrapper *)

(** [ToBoolean]. *)
Definition toBoolean (v : JsVal) : bool :=
  match v with
  | Prim JsUndefined | Prim JsNull => false
  | Prim (JsBoolean b) => b
  | Prim (JsNumber n) => negb (n =? 0)
  | Prim (JsString s) => negb (String.eqb s "")
  | Arr _ => true
  end.

(** The properties the constructor of [JsdocOptions] sets before it looks at
    its argument: [files] is an empty array, the others [undefined]. *)
Definition jsdocDefaults : gmap string JsVal :=
  <[ "files" := Arr [] ]>
    (list_to_map
       ((λ key, (key, Prim JsUndefined)) <$>
        ["source"; "access"; "configure"; "destination"; "encoding"; "private";
         "package"; "pedantic"; "query"; "recurse"; "readme"; "template";
         "tutorials"; "html"])).

(** [new JsdocOptions(options)].  [Object.assign] copies every key of
    [options], if there is an argument, over the defaults; [htmlConf] is the
    path [path.resolve(__dirname, 'html-conf.json')]. *)
Definition JsdocOptions (htmlConf : string) (options : option (gmap string JsVal))
  : gmap string JsVal :=
  let this := default ∅ options ∪ jsdocDefaults in
  if toBoolean (getProp this "html")
  then delete "html" (<[ "configure" := Prim (JsString htmlConf) ]> this)
  else this.

(** * Properties *)

(** ** The test suite, evaluated *)

Example Client_h : apiUrl (Client "http://h" None) = "http://h/api/content/".
Proof. reflexivity. Qed.
Example Client_h_slash : apiUrl (Client "http://h/" None) = "http://h/api/content/".
Proof. reflexivity. Qed.
Example Client_slash : serverUrl (Client "/" None) = "//".
Proof. reflexivity. Qed.
Example join_ex : join (Arr [JsNumber 29; JsNumber 30; JsNull; JsNumber (-4)]) "/" = Normal "29/30//-4".
Proof. vm_compute. reflexivity. Qed.

Example requestKind_ids :
  requestKind {[ "ids" := Arr [JsNumber 1; JsNumber 2; JsNumber 3] ]} = Normal "ids".
Proof. vm_compute. reflexivity. Qed.
Example requestKind_both :
  requestKind (<[ "ids" := Arr [JsNumber 1; JsNumber 2] ]> {[ "tags" := Arr [JsString "a"] ]})
  = Throw requestKindError.
Proof. vm_compute. reflexivity. Qed.
Example requestKind_none : requestKind ∅ = Throw requestKindError.
Proof. vm_compute. reflexivity. Qed.
Example requestToUrl_ex :
  requestToUrl (Client "http://h" None) {[ "ids" := Arr [JsNumber 29; JsNumber 30] ]}
  = Normal "http://h/api/content/byids/29/30".
Proof. vm_compute. reflexivity. Qed.
Example requestToUrl_notarray :
  requestToUrl (Client "http://h" None) {[ "ids" := Prim (JsString "29") ]}
  = Throw TypeError.
Proof. vm_compute. reflexivity. Qed.

Example results_byId_8 :
  invoke results 0%nat "byId" (JsNumber 8)
  = Normal (RObject (chunk 8 ["index-page"] "index-content" "<p>The <b>Seebeck effect</b> is the conversion of ")).
Proof. vm_compute. reflexivity. Qed.
Example results_byId_99 : invoke results 0%nat "byId" (JsNumber 99) = Normal RUndefined.
Proof. vm_compute. reflexivity. Qed.
Example results_byTag : invoke results 0%nat "byTag" (JsString "index-page") = Normal (RArray indexPage).
Proof. vm_compute. reflexivity. Qed.
Example results_byTag_none : invoke results 0%nat "byTag" (JsString "not a real tag") = Normal (RArray []).
Proof. vm_compute. reflexivity. Qed.
Example parsed_byId : invoke parsed 0%nat "byId" (JsNumber 8) = Throw TypeError.
Proof. vm_compute. reflexivity. Qed.

(** ** Strings *)

Section strings.
Implicit Types s t u : string.

Lemma append_cons a s t : String a s +:+ t = String a (s +:+ t).
Proof. reflexivity. Qed.

Lemma append_empty_l s : "" +:+ s = s.
Proof. reflexivity. Qed.

Lemma append_empty_r s : s +:+ "" = s.
Proof. induction s as [|a s IH]; [done|]. by rewrite append_cons, IH. Qed.

Lemma append_assoc s t u : (s +:+ t) +:+ u = s +:+ (t +:+ u).
Proof. induction s as [|a s IH]; [done|]. by rewrite !append_cons, IH. Qed.

Lemma append_last_inj s t c d : s +:+ String c "" = t +:+ String d "" → c = d.
Proof.
  revert t. induction s as [|a s IH]; intros [|b t]; rewrite ?append_cons;
    intros [= ]; subst; try done.
  - by destruct t.
  - by destruct s.
  - by apply (IH t).
Qed.
End strings.

(** ** [Array.prototype.join] *)

Lemma concat_separated sep x l :
  String.concat sep (x :: l) = x +:+ separated sep l.
Proof.
  revert x. induction l as [|y l IH]; intros x.
  - simpl. by rewrite append_empty_r.
  - change (String.concat sep (x :: y :: l))
      with (x +:+ sep +:+ String.concat sep (y :: l)).
    by rewrite IH.
Qed.

Lemma joinLoop_later sep R k l :
  joinLoop sep R (S k) l = R +:+ separated sep (joinNext <$> l).
Proof.
  revert R k. induction l as [|x l IH]; intros R k.
  - simpl. by rewrite append_empty_r.
  - simpl joinLoop. rewrite IH. simpl separated. by rewrite !append_assoc.
Qed.

Lemma joinLoop_concat sep l :
  joinLoop sep "" 0 l = String.concat sep (joinNext <$> l).
Proof.
  destruct l as [|x l]; [done|].
  simpl joinLoop. rewrite joinLoop_later.
  change (joinNext <$> x :: l) with (joinNext x :: (joinNext <$> l)).
  by rewrite concat_separated.
Qed.

(** ** Presence of keys *)

Lemma isRequestKind_present (request : gmap string JsVal) kind :
  isRequestKind request kind = bool_decide (is_Some (request !! kind)).
Proof.
  unfold isRequestKind, Object_keys.
  destruct (existsb _ _) eqn:E; symmetry.
  - apply bool_decide_eq_true.
    apply existsb_exists in E as (item & Hin & Heq).
    apply String.eqb_eq in Heq as ->.
    apply list_elem_of_In, list_elem_of_fmap in Hin as ([k v] & -> & Hkv).
    apply elem_of_map_to_list in Hkv. by exists v.
  - apply bool_decide_eq_false. intros [v Hv].
    apply not_true_iff_false in E. apply E.
    apply existsb_exists. exists kind. split; [|by apply String.eqb_eq].
    apply list_elem_of_In, list_elem_of_fmap. exists (kind, v).
    split; [done|]. by apply elem_of_map_to_list.
Qed.

(** [requestKind] in terms of the three presence tests. *)
Lemma requestKind_present (request : gmap string JsVal) :
  requestKind request =
    match request !! "ids", request !! "names", request !! "tags" with
    | Some _, None, None => Normal "ids"
    | None, Some _, None => Normal "names"
    | None, None, Some _ => Normal "tags"
    | _, _, _ => Throw requestKindError
    end.
Proof.
  unfold requestKind, isIdsRequest, isNamesRequest, isTagsRequest.
  rewrite !isRequestKind_present.
  by destruct (request !! "ids"), (request !! "names"), (request !! "tags").
Qed.

Lemma presentKeys_lookup (request : gmap string JsVal) :
  presentKeys request =
    (if request !! "ids" is Some _ then ["ids"] else []) ++
    (if request !! "names" is Some _ then ["names"] else []) ++
    (if request !! "tags" is Some _ then ["tags"] else []).
Proof.
  unfold presentKeys, recognised.
  by destruct (request !! "ids") eqn:E1, (request !! "names") eqn:E2,
    (request !! "tags") eqn:E3;
    repeat (rewrite ?filter_cons, ?filter_nil; simpl; rewrite ?E1, ?E2, ?E3;
            try case_decide as H; try (by destruct H as [? [=]]);
            try (by exfalso; apply H; eexists)).
Qed.

(** ** Classification *)

(** C1. [requestKind] returns a kind exactly when that kind's key is the one
    recognised key the request has, and throws its error exactly when the
    request has none or several of them.  The outcome depends on nothing but
    which of the three keys are present: other keys, added or removed, and
    the values held (an empty array included) play no part. *)
Theorem requestKind_exactly_one (request : gmap string JsVal) :
  (∀ kind, requestKind request = Normal kind ↔ presentKeys request = [kind])
  ∧ (requestKind request = Throw requestKindError
     ↔ length (presentKeys request) ≠ 1%nat)
  ∧ (∀ request' : gmap string JsVal,
       (∀ key, key ∈ recognised →
          is_Some (request' !! key) ↔ is_Some (request !! key)) →
       requestKind request' = requestKind request)
  ∧ (∀ key v, key ∉ recognised →
       requestKind (<[key := v]> request) = requestKind request
       ∧ requestKind (delete key request) = requestKind request)
  ∧ requestKind {[ "ids" := Arr [] ]} = Normal "ids"
  ∧ requestKind (<[ "foo" := Prim (JsString "bar") ]> {[ "ids" := Arr [JsNumber 1] ]})
    = Normal "ids".
Proof.
  assert (Hdep : ∀ request' : gmap string JsVal,
    (∀ key, key ∈ recognised →
       is_Some (request' !! key) ↔ is_Some (request !! key)) →
    requestKind request' = requestKind request).
  { intros request' H.
    unfold requestKind, isIdsRequest, isNamesRequest, isTagsRequest.
    rewrite !isRequestKind_present.
    assert (Hi := H "ids"). assert (Hn := H "names"). assert (Ht := H "tags").
    unfold recognised in Hi, Hn, Ht. rewrite !elem_of_cons in Hi, Hn, Ht.
    rewrite (bool_decide_ext _ _ (Hi (or_introl eq_refl))).
    rewrite (bool_decide_ext _ _ (Hn (or_intror (or_introl eq_refl)))).
    by rewrite (bool_decide_ext _ _ (Ht (or_intror (or_intror (or_introl eq_refl))))). }
  split_and!.
  - intros kind. rewrite requestKind_present, presentKeys_lookup.
    destruct (request !! "ids"), (request !! "names"), (request !! "tags");
      simpl; split; intros; simplify_eq; done.
  - rewrite requestKind_present, presentKeys_lookup.
    destruct (request !! "ids"), (request !! "names"), (request !! "tags");
      simpl; split; intros; simplify_eq; done.
  - exact Hdep.
  - intros key v Hkey. split; apply Hdep; intros k Hk.
    + rewrite lookup_insert_ne; [done|]. by intros ->.
    + rewrite lookup_delete_ne; [done|]. by intros ->.
  - vm_compute. reflexivity.
  - vm_compute. reflexivity.
Qed.

(** ** URL construction *)

Lemma requestKind_denotes request q :
  presentKeys request = [queryKey q] → requestKind request = Normal (queryKey q).
Proof.
  rewrite requestKind_present, presentKeys_lookup.
  by destruct q, (request !! "ids"), (request !! "names"), (request !! "tags").
Qed.

Lemma joinNext_numbers (ids : list Z) : joinNext <$> (JsNumber <$> ids) = pretty <$> ids.
Proof. by rewrite <-list_fmap_compose. Qed.

Lemma joinNext_strings (l : list string) : joinNext <$> (JsString <$> l) = l.
Proof. rewrite <-list_fmap_compose. by rewrite <-(list_fmap_id l) at 2. Qed.

(** The URL of a request that is a query of the data model. *)
Lemma requestToUrl_denotes this request q :
  denotes request q →
  requestToUrl this request
    = Normal (apiUrl this +:+ modeSegment q +:+ String.concat "/" (pathElements q)).
Proof.
  intros (Hkeys & Hval & _).
  unfold requestToUrl. rewrite (requestKind_denotes _ _ Hkeys).
  unfold getProp.
  destruct q; simpl in *; rewrite Hval; simpl; rewrite joinLoop_concat;
    by rewrite ?joinNext_numbers, ?joinNext_strings.
Qed.

(** C2. For a request that is a query of the data model, [requestToUrl]
    returns the API URL, the mode segment, and the elements of the array in
    their order, joined with ["/"]; identifiers appear as decimal strings.
    For [{ids:[29,30]}] on a client whose [apiUrl] is
    [http://h/api/content/] that is [http://h/api/content/byids/29/30]. *)
Theorem requestToUrl_path (this : ClientObject) (request : gmap string JsVal)
    (q : Query) :
  denotes request q →
  requestToUrl this request
    = Normal (apiUrl this +:+ modeSegment q +:+ String.concat "/" (pathElements q))
  ∧ (apiUrl this = "http://h/api/content/" →
     requestToUrl this {[ "ids" := Arr [JsNumber 29; JsNumber 30] ]}
       = Normal "http://h/api/content/byids/29/30").
Proof.
  intros Hq. split; [by apply requestToUrl_denotes|].
  intros Hapi. rewrite (requestToUrl_denotes this _ (Ids [29; 30])).
  - rewrite Hapi. by vm_compute.
  - split_and!; [by vm_compute | by vm_compute | repeat constructor; by vm_compute].
Qed.

Lemma requestToUrl_path_witness :
  denotes {[ "names" := Arr [JsString "heading"; JsString "footer"; JsString "heading"] ]}
          (Names ["heading"; "footer"; "heading"])
  ∧ requestToUrl (Client "http://localhost:2999" None)
      {[ "names" := Arr [JsString "heading"; JsString "footer"; JsString "heading"] ]}
    = Normal "http://localhost:2999/api/content/bynames/heading/footer/heading".
Proof.
  assert (H : denotes
    {[ "names" := Arr [JsString "heading"; JsString "footer"; JsString "heading"] ]}
    (Names ["heading"; "footer"; "heading"])).
  { split_and!; [by vm_compute | by vm_compute | constructor]. }
  split; [exact H|].
  exact (proj1 (requestToUrl_path (Client "http://localhost:2999" None) _ _ H)).
Defined.

(** A request that classifies reaches the transport: one call of [fetch],
    for the URL built. *)
Lemma get_fetches this request network url :
  requestToUrl this request = Normal url →
  ∃ call, fetch_url call = url
    ∧ get this request network = (Normal (ResponseTo call), network ++ [call]).
Proof.
  intros H. unfold get, blackstarFetch. rewrite H.
  eexists. split; [|reflexivity]. reflexivity.
Qed.

Lemma requestKind_outcomes request :
  requestKind request = Normal "ids" ∨ requestKind request = Normal "names"
  ∨ requestKind request = Normal "tags"
  ∨ requestKind request = Throw requestKindError.
Proof.
  rewrite requestKind_present.
  destruct (request !! "ids"), (request !! "names"), (request !! "tags"); auto.
Qed.

(** C3. A request that does not have exactly one of the recognised keys makes
    [requestToUrl] throw the error of [requestKind], and [get] throw it
    before [fetch] is called: the record of network calls is unchanged.  The
    default branch of the switch is never taken, for any request. *)
Theorem requestToUrl_invalid (this : ClientObject) (request : gmap string JsVal)
    (network : list FetchCall) :
  length (presentKeys request) ≠ 1%nat →
  requestKind request = Throw requestKindError
  ∧ requestToUrl this request = Throw requestKindError
  ∧ get this request network = (Throw requestKindError, network)
  ∧ (∀ (this' : ClientObject) (request' : gmap string JsVal) kind,
       requestToUrl this' request'
         ≠ Throw (Error ("Unknown request kind: " +:+ kind))).
Proof.
  intros Hkeys.
  assert (Hkind : requestKind request = Throw requestKindError).
  { revert Hkeys. rewrite requestKind_present, presentKeys_lookup.
    by destruct (request !! "ids"), (request !! "names"), (request !! "tags"). }
  assert (Hurl : requestToUrl this request = Throw requestKindError).
  { unfold requestToUrl. by rewrite Hkind. }
  split_and!; [done | done | unfold get; by rewrite Hurl |].
  intros this' request' kind. unfold requestToUrl, getProp.
  destruct (requestKind_outcomes request') as [-> | [-> | [-> | ->]]]; simpl.
  - by destruct (request' !! "ids") as [[|]|].
  - by destruct (request' !! "names") as [[|]|].
  - by destruct (request' !! "tags") as [[|]|].
  - intros [=].
Qed.

Lemma requestToUrl_invalid_witness :
  length (presentKeys
    (<[ "ids" := Arr [JsNumber 1; JsNumber 2] ]> {[ "tags" := Arr [JsString "a"] ]}))
    ≠ 1%nat
  ∧ get (Client "http://h" None)
      (<[ "ids" := Arr [JsNumber 1; JsNumber 2] ]> {[ "tags" := Arr [JsString "a"] ]})
      [] = (Throw requestKindError, []).
Proof.
  assert (H : length (presentKeys
    (<[ "ids" := Arr [JsNumber 1; JsNumber 2] ]> {[ "tags" := Arr [JsString "a"] ]}))
    ≠ 1%nat) by (vm_compute; lia).
  split; [exact H|].
  exact (proj1 (proj2 (proj2 (requestToUrl_invalid (Client "http://h" None) _ [] H)))).
Defined.

(** C4. When the one recognised key holds an empty array, [requestToUrl]
    succeeds and the URL ends with the mode segment: joining no elements
    gives the empty string. *)
Theorem requestToUrl_empty (this : ClientObject) (request : gmap string JsVal)
    (q : Query) :
  denotes request q →
  pathElements q = [] →
  join (queryValue q) "/" = Normal ""
  ∧ requestToUrl this request = Normal (apiUrl this +:+ modeSegment q).
Proof.
  intros (Hkeys & Hval & _) Hnil.
  destruct q as [l|l|l]; simpl in Hnil; try apply fmap_nil_inv in Hnil;
    subst l; (split; [done|]);
    unfold requestToUrl; rewrite (requestKind_denotes _ _ Hkeys);
    unfold getProp; simpl in *; rewrite Hval; simpl;
    by rewrite append_empty_r.
Qed.

Lemma requestToUrl_empty_witness :
  denotes (<[ "foo" := Prim (JsString "bar") ]> {[ "ids" := Arr [] ]}) (Ids [])
  ∧ requestToUrl (Client "http://h/" None)
      (<[ "foo" := Prim (JsString "bar") ]> {[ "ids" := Arr [] ]})
    = Normal "http://h/api/content/byids/".
Proof.
  assert (H : denotes (<[ "foo" := Prim (JsString "bar") ]> {[ "ids" := Arr [] ]})
                      (Ids [])).
  { split_and!; [by vm_compute | by vm_compute | constructor]. }
  split; [exact H|].
  exact (proj2 (requestToUrl_empty (Client "http://h/" None) _ _ H eq_refl)).
Defined.

(** ** Strict equality *)

Lemma strictEquals_eq x y : strictEquals x y = true ↔ x = y.
Proof.
  destruct x, y; simpl; try (split; [discriminate | intros [=]]);
    try (split; [reflexivity | reflexivity]).
  - rewrite Bool.eqb_true_iff. split; [by intros -> | by intros [=]].
  - rewrite Z.eqb_eq. split; [by intros -> | by intros [=]].
  - rewrite String.eqb_eq. split; [by intros -> | by intros [=]].
Qed.

Lemma strictEquals_decide x y : strictEquals x y = bool_decide (x = y).
Proof.
  destruct (strictEquals x y) eqn:E; symmetry.
  - by apply bool_decide_eq_true, strictEquals_eq.
  - apply bool_decide_eq_false. intros H%strictEquals_eq. congruence.
Qed.

Lemma strictEqualsVal_eq v p : strictEqualsVal v p = true ↔ v = Prim p.
Proof.
  destruct v as [q|l]; simpl.
  - rewrite strictEquals_eq. split; [by intros -> | by intros [=]].
  - split; [discriminate | intros [=]].
Qed.

Lemma strictEqualsVal_neq v p : strictEqualsVal v p = false ↔ v ≠ Prim p.
Proof. rewrite <-strictEqualsVal_eq. by destruct (strictEqualsVal v p). Qed.

Lemma strictEquals_types x y : typeOf x ≠ typeOf y → strictEquals x y = false.
Proof. intros H. by destruct x, y. Qed.

(** ** The array walks *)

Section walks.
Context {A : Type}.
Implicit Types (f : A → bool) (l : list A).

Lemma Array_find_Some f l c :
  Array_find (λ x, Normal (f x)) l = Normal (Some c) ↔ firstSuch f l c.
Proof.
  induction l as [|x l IH]; simpl.
  - split; [discriminate|]. intros (pre & post & H & _). by destruct pre.
  - destruct (f x) eqn:Hx.
    + split.
      * intros [= ->]. exists [], l. split_and!; [done..|]. by intros ? ?%elem_of_nil.
      * intros ([|y pre] & post & [= -> ->] & Hc & Hpre); [done|].
        rewrite Hpre in Hx; [done | apply list_elem_of_here].
    + rewrite IH. split.
      * intros (pre & post & -> & Hc & Hpre). exists (x :: pre), post.
        split_and!; [done..|]. intros y [-> | Hy]%elem_of_cons; auto.
      * intros ([|y pre] & post & [= -> ->] & Hc & Hpre); [congruence|].
        exists pre, post. split_and!; [done..|].
        intros z Hz. apply Hpre. by apply list_elem_of_further.
Qed.

Lemma Array_find_None f l :
  Array_find (λ x, Normal (f x)) l = Normal None ↔ ∀ x, x ∈ l → f x = false.
Proof.
  induction l as [|x l IH]; simpl.
  - split; [|done]. by intros _ ? ?%elem_of_nil.
  - destruct (f x) eqn:Hx.
    + split; [discriminate|]. intros H. rewrite H in Hx; [done | apply list_elem_of_here].
    + rewrite IH. split.
      * intros H y [-> | Hy]%elem_of_cons; auto.
      * intros H y Hy. apply H. by apply list_elem_of_further.
Qed.

Lemma Array_find_total f l :
  ∃ r, Array_find (λ x, Normal (f x)) l = Normal r.
Proof.
  induction l as [|x l [r IH]]; simpl; [by eexists|].
  destruct (f x); by eexists.
Qed.

Lemma Array_some_decide f (P : A → Prop) `{∀ x, Decision (P x)} l :
  (∀ x, f x = bool_decide (P x)) →
  Array_some (λ x, Normal (f x)) l = Normal (bool_decide (Exists P l)).
Proof.
  intros Hf. induction l as [|x l IH].
  - rewrite bool_decide_eq_false_2 by (by intros ?%Exists_nil). done.
  - destruct (decide (P x)) as [Hx|Hx].
    + rewrite (bool_decide_eq_true_2 (Exists P (x :: l))) by (by left).
      simpl. by rewrite Hf, bool_decide_eq_true_2.
    + rewrite (bool_decide_ext (Exists P (x :: l)) (Exists P l))
        by (rewrite Exists_cons; tauto).
      simpl. by rewrite Hf, bool_decide_eq_false_2.
Qed.

Lemma Array_filter_decide (callback : A → Completion bool) (P : A → Prop)
    `{∀ x, Decision (P x)} l :
  (∀ x, x ∈ l → callback x = Normal (bool_decide (P x))) →
  Array_filter callback l = Normal (filter P l).
Proof.
  induction l as [|x l IH]; intros Hcb; simpl; [done|].
  rewrite Hcb by (apply list_elem_of_here). simpl.
  rewrite IH by (intros y Hy; apply Hcb; apply list_elem_of_further, Hy).
  simpl.
  rewrite filter_cons.
  case_bool_decide; [by rewrite decide_True | by rewrite decide_False].
Qed.
End walks.

(** ** Enrichment *)

Lemma enrich_installs (σ : Store) data a :
  σ !! data = Some a →
  enrichCollectionWithByMethods data σ = Normal (data, <[data := installed data a]> σ).
Proof.
  intros H. unfold enrichCollectionWithByMethods, setMember.
  rewrite H. simpl. rewrite lookup_insert_eq. simpl.
  rewrite lookup_insert_eq. simpl. by rewrite !insert_insert_eq.
Qed.

Lemma enrich_not_object (σ : Store) data :
  σ !! data = None → enrichCollectionWithByMethods data σ = Throw TypeError.
Proof. intros H. unfold enrichCollectionWithByMethods, setMember. by rewrite H. Qed.

Lemma enrich_inv (σ σ1 : Store) data a :
  σ !! data = Some a →
  enrichCollectionWithByMethods data σ = Normal (data, σ1) →
  σ1 = <[data := installed data a]> σ.
Proof. intros H. rewrite (enrich_installs _ _ _ H). by intros [=]. Qed.

Lemma installed_byName data a : members (installed data a) !! "byName" = Some (ByName data).
Proof.
  simpl. rewrite (lookup_insert_ne _ "byTag"), (lookup_insert_ne _ "byId") by done.
  apply lookup_insert_eq.
Qed.
Lemma installed_byId data a : members (installed data a) !! "byId" = Some (ById data).
Proof. simpl. rewrite (lookup_insert_ne _ "byTag") by done. apply lookup_insert_eq. Qed.
Lemma installed_byTag data a : members (installed data a) !! "byTag" = Some (ByTag data).
Proof. simpl. by rewrite lookup_insert_eq. Qed.

Lemma installed_other data a key :
  key ∉ ["byName"; "byId"; "byTag"] →
  members (installed data a) !! key = members a !! key.
Proof.
  intros H. simpl. rewrite !lookup_insert_ne; [done|..]; intros <-; apply H;
    repeat constructor.
Qed.

Lemma installed_installed data a :
  installed data (installed data a) = installed data a.
Proof.
  unfold installed. simpl. f_equal. apply map_eq. intros key.
  rewrite !lookup_insert. by repeat case_decide.
Qed.

(** A method call on an array that carries the installed functions runs the
    function's body against the array as it is in the store of the call. *)
Section invoke.
Context (σ : Store) (data : Ref) (a : ArrayObject).
Hypothesis Hdata : σ !! data = Some a.

Lemma invoke_byName name :
  members a !! "byName" = Some (ByName data) →
  invoke σ data "byName" name =
    r ← Array_find (λ item, Normal (strictEqualsVal (getProp item "name") name))
                   (elements a);
    Normal (findResult r).
Proof. intros H. unfold invoke. rewrite Hdata, H. simpl. unfold byName. by rewrite Hdata. Qed.

Lemma invoke_byId id :
  members a !! "byId" = Some (ById data) →
  invoke σ data "byId" id =
    r ← Array_find (λ item, Normal (strictEqualsVal (getProp item "id") id))
                   (elements a);
    Normal (findResult r).
Proof. intros H. unfold invoke. rewrite Hdata, H. simpl. unfold byId. by rewrite Hdata. Qed.

Lemma invoke_byTag tag :
  members a !! "byTag" = Some (ByTag data) →
  invoke σ data "byTag" tag =
    r ← Array_filter
          (λ item, some (getProp item "tags") (λ t, Normal (strictEquals t tag)))
          (elements a);
    Normal (RArray r).
Proof. intros H. unfold invoke. rewrite Hdata, H. simpl. unfold byTag. by rewrite Hdata. Qed.
End invoke.

(** C5. On an array in the store, [enrichCollectionWithByMethods] succeeds
    (whatever the elements, none included), returns the reference it was
    given, allocates nothing, and leaves the array carrying [byName], [byId]
    and [byTag].  Enriching the result again succeeds with the same
    reference, and every method call gives the same outcome after the second
    enrichment as after the first. *)
Theorem enrich_idempotent (σ : Store) (data : Ref) (a : ArrayObject) :
  σ !! data = Some a →
  ∃ σ1 a1,
    enrichCollectionWithByMethods data σ = Normal (data, σ1)
    ∧ dom σ1 = dom σ
    ∧ σ1 !! data = Some a1
    ∧ elements a1 = elements a
    ∧ members a1 !! "byName" = Some (ByName data)
    ∧ members a1 !! "byId" = Some (ById data)
    ∧ members a1 !! "byTag" = Some (ByTag data)
    ∧ ∃ σ2,
        enrichCollectionWithByMethods data σ1 = Normal (data, σ2)
        ∧ ∀ obj name arg, invoke σ2 obj name arg = invoke σ1 obj name arg.
Proof.
  intros H. exists (<[data := installed data a]> σ), (installed data a).
  split_and!.
  - by apply enrich_installs.
  - apply dom_insert_lookup_L. by exists a.
  - by rewrite lookup_insert_eq.
  - done.
  - apply installed_byName.
  - apply installed_byId.
  - apply installed_byTag.
  - exists (<[data := installed data a]> σ). split; [|done].
    rewrite (enrich_installs _ data (installed data a)) by by rewrite lookup_insert_eq.
    by rewrite insert_insert_eq, installed_installed.
Qed.

Lemma enrich_idempotent_witness :
  ({[ 5%nat := {| elements := []; members := ∅ |} ]} : Store) !! 5%nat
    = Some {| elements := []; members := ∅ |}
  ∧ ∃ σ1, enrichCollectionWithByMethods 5%nat
            {[ 5%nat := {| elements := []; members := ∅ |} ]} = Normal (5%nat, σ1).
Proof.
  assert (H : ({[ 5%nat := {| elements := []; members := ∅ |} ]} : Store) !! 5%nat
    = Some {| elements := []; members := ∅ |}) by apply lookup_singleton_eq.
  split; [exact H|].
  destruct (enrich_idempotent _ _ _ H) as (σ1 & a1 & Henrich & _).
  by exists σ1.
Defined.

(** ** Lookups *)

Lemma firstWith_firstSuch field v l c :
  firstSuch (λ item, strictEqualsVal (getProp item field) v) l c
  ↔ firstWith field v l c.
Proof.
  unfold firstSuch, firstWith.
  setoid_rewrite strictEqualsVal_eq. by setoid_rewrite strictEqualsVal_neq.
Qed.

Lemma find_RObject field v l c :
  (r ← Array_find (λ item, Normal (strictEqualsVal (getProp item field) v)) l;
   Normal (findResult r)) = Normal (RObject c)
  ↔ firstWith field v l c.
Proof.
  rewrite <-firstWith_firstSuch, <-Array_find_Some.
  destruct (Array_find_total (λ item, strictEqualsVal (getProp item field) v) l)
    as [[o|] ->]; simpl; split; intros; by simplify_eq.
Qed.

Lemma find_RUndefined field v l :
  (r ← Array_find (λ item, Normal (strictEqualsVal (getProp item field) v)) l;
   Normal (findResult r)) = Normal RUndefined
  ↔ noneWith field v l.
Proof.
  unfold noneWith. setoid_rewrite <-strictEqualsVal_neq.
  rewrite <-Array_find_None.
  destruct (Array_find_total (λ item, strictEqualsVal (getProp item field) v) l)
    as [[o|] ->]; simpl; split; intros; by simplify_eq.
Qed.

(** The state after enrichment, as the lookups see it. *)
Lemma enriched_lookup (σ σ1 : Store) data a :
  σ !! data = Some a →
  enrichCollectionWithByMethods data σ = Normal (data, σ1) →
  σ1 !! data = Some (installed data a).
Proof. intros H ->%(enrich_inv _ _ _ _ H). by rewrite lookup_insert_eq. Qed.

(** C6. On an enriched array, [byId(id)] returns the first chunk, in array
    order, whose [id] is the given value, and [undefined] exactly when no
    chunk has it; [byName] does the same over [name].  On the collection of
    the tests, [byId(8)] is the chunk named [index-content], [byId(99)] is
    [undefined], and [byName('index-heading')] is the chunk with id 6. *)
Theorem lookup_first_match (σ σ1 : Store) (data : Ref) (a : ArrayObject) :
  σ !! data = Some a →
  enrichCollectionWithByMethods data σ = Normal (data, σ1) →
  (∀ id c, invoke σ1 data "byId" id = Normal (RObject c)
           ↔ firstWith "id" id (elements a) c)
  ∧ (∀ id, invoke σ1 data "byId" id = Normal RUndefined
           ↔ noneWith "id" id (elements a))
  ∧ (∀ name c, invoke σ1 data "byName" name = Normal (RObject c)
               ↔ firstWith "name" name (elements a) c)
  ∧ (∀ name, invoke σ1 data "byName" name = Normal RUndefined
             ↔ noneWith "name" name (elements a))
  ∧ (∃ c, invoke results 0%nat "byId" (JsNumber 8) = Normal (RObject c)
          ∧ getProp c "name" = Prim (JsString "index-content"))
  ∧ invoke results 0%nat "byId" (JsNumber 99) = Normal RUndefined
  ∧ (∃ c, invoke results 0%nat "byName" (JsString "index-heading") = Normal (RObject c)
          ∧ getProp c "id" = Prim (JsNumber 6)).
Proof.
  intros H Henrich. pose proof (enriched_lookup _ _ _ _ H Henrich) as H1.
  split_and!.
  - intros id c. rewrite (invoke_byId _ _ _ H1) by apply installed_byId.
    apply find_RObject.
  - intros id. rewrite (invoke_byId _ _ _ H1) by apply installed_byId.
    apply find_RUndefined.
  - intros name c. rewrite (invoke_byName _ _ _ H1) by apply installed_byName.
    apply find_RObject.
  - intros name. rewrite (invoke_byName _ _ _ H1) by apply installed_byName.
    apply find_RUndefined.
  - eexists. split; [by vm_compute | by vm_compute].
  - by vm_compute.
  - eexists. split; [by vm_compute | by vm_compute].
Qed.

(** Two chunks share the id 7: the first one is returned. *)
Lemma lookup_first_match_witness :
  let twice : list (gmap string JsVal) :=
    [chunk 7 [] "first" ""; chunk 7 [] "second" ""] in
  let σ : Store := {[ 3%nat := {| elements := twice; members := ∅ |} ]} in
  let σ1 : Store := {[ 3%nat := installed 3%nat {| elements := twice; members := ∅ |} ]} in
  σ !! 3%nat = Some {| elements := twice; members := ∅ |}
  ∧ enrichCollectionWithByMethods 3%nat σ = Normal (3%nat, σ1)
  ∧ invoke σ1 3%nat "byId" (JsNumber 7) = Normal (RObject (chunk 7 [] "first" "")).
Proof.
  intros twice σ σ1.
  assert (H : σ !! 3%nat = Some {| elements := twice; members := ∅ |})
    by apply lookup_singleton_eq.
  assert (H1 : enrichCollectionWithByMethods 3%nat σ = Normal (3%nat, σ1)).
  { rewrite (enrich_installs _ _ _ H). subst σ σ1. by rewrite insert_singleton_eq. }
  split_and!; [exact H | exact H1 |].
  apply (proj1 (lookup_first_match σ σ1 3%nat _ H H1)).
  exists [], [chunk 7 [] "second" ""]. split_and!; [done | by vm_compute |].
  by intros x ?%elem_of_nil.
Defined.

(** ** Lookup by tag *)

Lemma some_tag_decide (tag : JsPrim) (l : list JsPrim) :
  some (Arr l) (λ t, Normal (strictEquals t tag)) = Normal (bool_decide (tag ∈ l)).
Proof.
  simpl. rewrite (Array_some_decide _ (λ t, t = tag))
    by (intros t; apply strictEquals_decide).
  f_equal. apply bool_decide_ext. rewrite Exists_exists.
  split; [by intros (? & ? & ->) | by exists tag].
Qed.

Lemma tags_callback tag item :
  hasTags item →
  some (getProp item "tags") (λ t, Normal (strictEquals t tag))
    = Normal (bool_decide (taggedWith tag item)).
Proof.
  intros [l Hl]. rewrite Hl, some_tag_decide. f_equal.
  apply bool_decide_ext. unfold taggedWith. by rewrite Hl.
Qed.

Lemma filter_none {A} (P : A → Prop) `{∀ x, Decision (P x)} (l : list A) :
  (∀ x, x ∈ l → ¬ P x) → filter P l = [].
Proof.
  induction l as [|x l IH]; intros Hl; [done|].
  rewrite filter_cons, decide_False by (apply Hl, list_elem_of_here).
  apply IH. intros y Hy. by apply Hl, list_elem_of_further.
Qed.

(** A chunk whose [tags] is missing makes [byTag] throw. *)
Example byTag_without_tags :
  let σ : Store :=
    {[ 0%nat := installed 0%nat
         {| elements := [ {[ "id" := Prim (JsNumber 1) ]} ]; members := ∅ |} ]} in
  invoke σ 0%nat "byTag" (JsString "a") = Throw TypeError.
Proof. by vm_compute. Qed.

(** C7. On an enriched array whose chunks each carry a [tags] array,
    [byTag(tag)] does not throw: it returns the array of all chunks whose
    [tags] contain [tag], in array order, and the empty array when there is
    none.  [byId] and [byName] return [undefined], which is not the empty
    array, when nothing matches. *)
Theorem byTag_filters (σ σ1 : Store) (data : Ref) (a : ArrayObject) :
  σ !! data = Some a →
  enrichCollectionWithByMethods data σ = Normal (data, σ1) →
  Forall hasTags (elements a) →
  (∀ tag, invoke σ1 data "byTag" tag
            = Normal (RArray (filter (taggedWith tag) (elements a))))
  ∧ (∀ tag, (∀ x, x ∈ elements a → ¬ taggedWith tag x) →
            invoke σ1 data "byTag" tag = Normal (RArray []))
  ∧ (∀ id, noneWith "id" id (elements a) →
           invoke σ1 data "byId" id = Normal RUndefined)
  ∧ (∀ name, noneWith "name" name (elements a) →
             invoke σ1 data "byName" name = Normal RUndefined)
  ∧ RUndefined ≠ RArray [].
Proof.
  intros H Henrich Htags. pose proof (enriched_lookup _ _ _ _ H Henrich) as H1.
  assert (Hall : ∀ tag, invoke σ1 data "byTag" tag
            = Normal (RArray (filter (taggedWith tag) (elements a)))).
  { intros tag. rewrite (invoke_byTag _ _ _ H1) by apply installed_byTag.
    simpl. rewrite (Array_filter_decide _ (taggedWith tag)); [done|].
    intros item Hitem. apply tags_callback.
    by apply (proj1 (Forall_forall _ _) Htags). }
  split_and!.
  - exact Hall.
  - intros tag Hnone. by rewrite Hall, filter_none.
  - intros id Hnone. rewrite (invoke_byId _ _ _ H1) by apply installed_byId.
    by apply find_RUndefined.
  - intros name Hnone. rewrite (invoke_byName _ _ _ H1) by apply installed_byName.
    by apply find_RUndefined.
  - discriminate.
Qed.

Lemma parsed_lookup : parsed !! 0%nat = Some {| elements := indexPage; members := ∅ |}.
Proof. apply lookup_singleton_eq. Qed.

Lemma parsed_enriched :
  enrichCollectionWithByMethods 0%nat parsed = Normal (0%nat, results).
Proof. unfold results. by rewrite (enrich_installs _ _ _ parsed_lookup). Qed.

Lemma indexPage_hasTags : Forall hasTags indexPage.
Proof. repeat constructor; by eexists. Qed.

Lemma byTag_filters_witness :
  parsed !! 0%nat = Some {| elements := indexPage; members := ∅ |}
  ∧ enrichCollectionWithByMethods 0%nat parsed = Normal (0%nat, results)
  ∧ Forall hasTags indexPage
  ∧ invoke results 0%nat "byTag" (JsString "index-page")
    = Normal (RArray (filter (taggedWith (JsString "index-page")) indexPage)).
Proof.
  split_and!; [exact parsed_lookup | exact parsed_enriched | exact indexPage_hasTags |].
  exact (proj1 (byTag_filters parsed results 0%nat _ parsed_lookup parsed_enriched
                  indexPage_hasTags) (JsString "index-page")).
Defined.

Example byTag_indexPage :
  filter (taggedWith (JsString "index-page")) indexPage = indexPage.
Proof. by vm_compute. Qed.

(** ** What enrichment leaves alone *)

(** C8. Enrichment changes one thing: the members [byName], [byId] and
    [byTag] of the array it is given.  The array's elements are the same
    chunks in the same order, its other members are as before, and no other
    object of the store changes.  The lookups read the array at the time of
    the call: whatever elements the array holds then are the ones searched,
    so a chunk appended after enrichment is found. *)
Theorem enrich_frame (σ σ1 : Store) (data : Ref) (a : ArrayObject) :
  σ !! data = Some a →
  enrichCollectionWithByMethods data σ = Normal (data, σ1) →
  ∃ a1,
    σ1 !! data = Some a1
    ∧ elements a1 = elements a
    ∧ (∀ key, key ∉ ["byName"; "byId"; "byTag"] →
         members a1 !! key = members a !! key)
    ∧ (∀ r, r ≠ data → σ1 !! r = σ !! r)
    ∧ (∀ (σ' : Store) a', σ' !! data = Some a' → members a' = members a1 →
         ∀ arg,
           invoke σ' data "byName" arg =
             (r ← Array_find
                    (λ item, Normal (strictEqualsVal (getProp item "name") arg))
                    (elements a');
              Normal (findResult r))
           ∧ invoke σ' data "byId" arg =
             (r ← Array_find
                    (λ item, Normal (strictEqualsVal (getProp item "id") arg))
                    (elements a');
              Normal (findResult r))
           ∧ invoke σ' data "byTag" arg =
             (r ← Array_filter
                    (λ item, some (getProp item "tags")
                                  (λ t, Normal (strictEquals t arg)))
                    (elements a');
              Normal (RArray r)))
    ∧ (∀ c id, getProp c "id" = Prim id → noneWith "id" id (elements a) →
         invoke σ1 data "byId" id = Normal RUndefined
         ∧ invoke (<[data := {| elements := elements a1 ++ [c];
                                members := members a1 |}]> σ1)
                  data "byId" id = Normal (RObject c)).
Proof.
  intros H Henrich. pose proof (enriched_lookup _ _ _ _ H Henrich) as H1.
  assert (Hview : ∀ (σ' : Store) a', σ' !! data = Some a' →
    members a' = members (installed data a) → ∀ arg,
      invoke σ' data "byName" arg =
        (r ← Array_find
               (λ item, Normal (strictEqualsVal (getProp item "name") arg))
               (elements a');
         Normal (findResult r))
      ∧ invoke σ' data "byId" arg =
        (r ← Array_find
               (λ item, Normal (strictEqualsVal (getProp item "id") arg))
               (elements a');
         Normal (findResult r))
      ∧ invoke σ' data "byTag" arg =
        (r ← Array_filter
               (λ item, some (getProp item "tags")
                             (λ t, Normal (strictEquals t arg)))
               (elements a');
         Normal (RArray r))).
  { intros σ' a' H' Hmem arg. split_and!.
    - apply invoke_byName; [done|]. rewrite Hmem. apply installed_byName.
    - apply invoke_byId; [done|]. rewrite Hmem. apply installed_byId.
    - apply invoke_byTag; [done|]. rewrite Hmem. apply installed_byTag. }
  exists (installed data a). split_and!.
  - done.
  - done.
  - intros key Hkey. by apply installed_other.
  - intros r Hr. rewrite (enrich_inv _ _ _ _ H Henrich).
    by rewrite lookup_insert_ne.
  - exact Hview.
  - intros c id Hc Hnone. split.
    + rewrite (proj1 (proj2 (Hview σ1 _ H1 eq_refl id))).
      by apply find_RUndefined.
    + set (a2 := {| elements := elements (installed data a) ++ [c];
                    members := members (installed data a) |}).
      rewrite (proj1 (proj2 (Hview (<[data := a2]> σ1) a2
                               (lookup_insert_eq σ1 data a2) eq_refl id))).
      apply find_RObject. exists (elements a), []. split_and!; done.
Qed.

Lemma enrich_frame_witness :
  parsed !! 0%nat = Some {| elements := indexPage; members := ∅ |}
  ∧ enrichCollectionWithByMethods 0%nat parsed = Normal (0%nat, results)
  ∧ ∃ a1, results !! 0%nat = Some a1 ∧ elements a1 = indexPage.
Proof.
  split_and!; [exact parsed_lookup | exact parsed_enriched |].
  destruct (enrich_frame parsed results 0%nat _ parsed_lookup parsed_enriched)
    as (a1 & Ha1 & Helements & _).
  by exists a1.
Defined.

(** ** Strictness of the comparisons *)

Lemma Array_filter_elem {A} (callback : A → Completion bool) (l r : list A) c :
  Array_filter callback l = Normal r → c ∈ r → callback c = Normal true.
Proof.
  revert r. induction l as [|x l IH]; intros r; simpl.
  - intros [= <-]. by intros ?%elem_of_nil.
  - destruct (callback x) as [b|] eqn:Hx; simpl; [|done].
    destruct (Array_filter callback l) as [kept|]; simpl; [|done].
    intros [= <-]. destruct b.
    + intros [-> | Hc]%elem_of_cons; [done | by apply (IH kept)].
    + by apply IH.
Qed.

Lemma some_tag_inv v tag :
  some v (λ t, Normal (strictEquals t tag)) = Normal true →
  ∃ l, v = Arr l ∧ tag ∈ l.
Proof.
  destruct v as [p|l]; [done|]. rewrite some_tag_decide.
  intros [= Hin%bool_decide_eq_true]. by exists l.
Qed.

(** C10. The lookups compare with [===]: nothing is converted.  [byId] with
    an argument whose type differs from the type of every stored id returns
    [undefined]; a chunk returned by [byId] or [byName] holds exactly the
    argument, and every chunk returned by [byTag] has exactly the argument
    among its tags.  On the collection of the tests, the string ['8'] finds
    nothing although the number 8 does, and names and tags that differ only
    in case find nothing. *)
Theorem lookups_strict (σ σ1 : Store) (data : Ref) (a : ArrayObject) :
  σ !! data = Some a →
  enrichCollectionWithByMethods data σ = Normal (data, σ1) →
  (∀ id, (∀ item p, item ∈ elements a → getProp item "id" = Prim p →
                    typeOf p ≠ typeOf id) →
         invoke σ1 data "byId" id = Normal RUndefined)
  ∧ (∀ id c, invoke σ1 data "byId" id = Normal (RObject c) →
             getProp c "id" = Prim id)
  ∧ (∀ name c, invoke σ1 data "byName" name = Normal (RObject c) →
               getProp c "name" = Prim name)
  ∧ (∀ tag l c, invoke σ1 data "byTag" tag = Normal (RArray l) → c ∈ l →
                ∃ tags, getProp c "tags" = Arr tags ∧ tag ∈ tags)
  ∧ invoke results 0%nat "byId" (JsString "8") = Normal RUndefined
  ∧ invoke results 0%nat "byId" (JsNumber 8) ≠ Normal RUndefined
  ∧ invoke results 0%nat "byName" (JsString "Index-Heading") = Normal RUndefined
  ∧ invoke results 0%nat "byName" (JsString "index-heading") ≠ Normal RUndefined
  ∧ invoke results 0%nat "byTag" (JsString "Index-Page") = Normal (RArray []).
Proof.
  intros H Henrich. pose proof (enriched_lookup _ _ _ _ H Henrich) as H1.
  split_and!.
  - intros id Htypes. rewrite (invoke_byId _ _ _ H1) by apply installed_byId.
    apply find_RUndefined. intros item Hitem Hid.
    by apply (Htypes item id Hitem Hid).
  - intros id c. rewrite (invoke_byId _ _ _ H1) by apply installed_byId.
    rewrite find_RObject. by intros (_ & _ & _ & Hc & _).
  - intros name c. rewrite (invoke_byName _ _ _ H1) by apply installed_byName.
    rewrite find_RObject. by intros (_ & _ & _ & Hc & _).
  - intros tag l c. rewrite (invoke_byTag _ _ _ H1) by apply installed_byTag.
    simpl. destruct (Array_filter _ _) as [kept|] eqn:Hfilter; simpl; [|done].
    intros [= <-] Hc.
    apply some_tag_inv, (Array_filter_elem _ _ _ _ Hfilter Hc).
  - by vm_compute.
  - by vm_compute.
  - by vm_compute.
  - by vm_compute.
  - by vm_compute.
Qed.

Lemma lookups_strict_witness :
  parsed !! 0%nat = Some {| elements := indexPage; members := ∅ |}
  ∧ enrichCollectionWithByMethods 0%nat parsed = Normal (0%nat, results)
  ∧ invoke results 0%nat "byId" (JsBoolean true) = Normal RUndefined.
Proof.
  split_and!; [exact parsed_lookup | exact parsed_enriched |].
  apply (proj1 (lookups_strict parsed results 0%nat _ parsed_lookup parsed_enriched)).
  intros item p Hitem Hp. simpl in Hitem. unfold indexPage in Hitem.
  repeat (apply elem_of_cons in Hitem as [-> | Hitem]);
    [vm_compute in Hp; by simplify_eq..|].
  by apply elem_of_nil in Hitem.
Defined.

(** ** The server URL *)

Section slash.
Import RegExp.

Lemma matchHere_more a p c s :
  matchHere (OneOrMore a :: p) (String c s)
  = atomMatches a c && (matchHere (OneOrMore a :: p) s || matchHere p s).
Proof. reflexivity. Qed.

Lemma matchHere_slash_end s :
  matchHere [One (Lit "/"); EndOfInput] s = true ↔ s = "/".
Proof.
  destruct s as [|c [|d s]]; simpl; try (split; [discriminate | intros [=]]).
  - rewrite andb_true_r, Ascii.eqb_eq. split; [by intros -> | by intros [=]].
  - rewrite andb_false_r. split; [discriminate | intros [=]].
Qed.

(** A match of [.+\/$] at the start of [s]: [s] is a character that is no
    line terminator, then possibly more, then the final slash. *)
Lemma matchHere_pattern s :
  matchHere [OneOrMore Dot; One (Lit "/"); EndOfInput] s = true →
  ∃ pre c, s = pre +:+ String c "/" ∧ isLineTerminator c = false.
Proof.
  induction s as [|c s IH]; [discriminate|].
  rewrite matchHere_more. intros [Hc [Hs | Hs]%orb_true_iff]%andb_true_iff.
  - destruct (IH Hs) as (pre & d & -> & Hd). by exists (String c pre), d.
  - apply matchHere_slash_end in Hs as ->. exists "", c.
    split; [done|]. by apply negb_true_iff.
Qed.

Lemma test_pattern_suffix pre s :
  matchHere [OneOrMore Dot; One (Lit "/"); EndOfInput] s = true →
  test [OneOrMore Dot; One (Lit "/"); EndOfInput] (pre +:+ s) = true.
Proof.
  intros Hs. induction pre as [|c pre IH].
  - destruct s as [|d s]; [discriminate|]. simpl test. simpl in Hs.
    by rewrite Hs.
  - rewrite append_cons. simpl test. rewrite IH. apply orb_true_r.
Qed.

Lemma endsWithForwardSlash_true input :
  endsWithForwardSlash input = true
  ↔ ∃ pre c, input = pre +:+ String c "/" ∧ isLineTerminator c = false.
Proof.
  unfold endsWithForwardSlash. split.
  - induction input as [|c s IH]; [discriminate|].
    simpl test. intros [Hs | Hs]%orb_true_iff.
    + by apply matchHere_pattern.
    + destruct (IH Hs) as (pre & d & -> & Hd). by exists (String c pre), d.
  - intros (pre & c & -> & Hc). apply test_pattern_suffix.
    rewrite matchHere_more. simpl. by rewrite Hc.
Qed.
End slash.

(** Whatever the URL given, [serverUrl] ends with a slash and [apiUrl] is
    [serverUrl] followed by [api/content/]. *)
Lemma Client_urls url opts :
  endsWithSlash (serverUrl (Client url opts))
  ∧ apiUrl (Client url opts) = serverUrl (Client url opts) +:+ "api/content/".
Proof.
  split; [|done]. simpl.
  destruct (endsWithForwardSlash url) eqn:E.
  - apply endsWithForwardSlash_true in E as (pre & c & -> & _).
    exists (pre +:+ String c ""). by rewrite append_empty_r, append_assoc.
  - by exists url.
Qed.

(** A URL that does not end with a slash gets one. *)
Lemma Client_appends url opts :
  ¬ endsWithSlash url → serverUrl (Client url opts) = url +:+ "/".
Proof.
  intros Hurl. simpl. destruct (endsWithForwardSlash url) eqn:E; [|done].
  apply endsWithForwardSlash_true in E as (pre & c & -> & _).
  destruct Hurl. exists (pre +:+ String c ""). by rewrite append_assoc.
Qed.

(** A URL that ends with a slash is kept when an ordinary character comes
    before that slash. *)
Lemma Client_keeps base c opts :
  RegExp.isLineTerminator c = false →
  serverUrl (Client (base +:+ String c "/") opts) = base +:+ String c "/".
Proof.
  intros Hc. simpl.
  rewrite (proj2 (endsWithForwardSlash_true _)) by (by exists base, c).
  apply append_empty_r.
Qed.

(** The wire format: for a server URL given with or without its final
    slash, the URL of a query is the server URL without that slash, then
    [/api/content/], the mode segment and the joined elements. *)
Lemma Client_wire_format base c opts request q :
  RegExp.isLineTerminator c = false →
  c ≠ "/"%char →
  denotes request q →
  let wire := base +:+ String c "/api/content/" +:+ modeSegment q
                +:+ String.concat "/" (pathElements q) in
  requestToUrl (Client (base +:+ String c "") opts) request = Normal wire
  ∧ requestToUrl (Client (base +:+ String c "/") opts) request = Normal wire.
Proof.
  intros Hc Hslash Hq wire. rewrite !(requestToUrl_denotes _ _ _ Hq).
  destruct (Client_urls (base +:+ String c "") opts) as [_ ->].
  destruct (Client_urls (base +:+ String c "/") opts) as [_ ->].
  rewrite Client_keeps by done. rewrite Client_appends.
  - subst wire. by rewrite !append_assoc.
  - intros [b Hb]. by apply append_last_inj in Hb.
Qed.

(** C9. The URL ["/"] ends with a slash, yet [endsWithForwardSlash] answers
    no, because its pattern asks for a character before the slash.  The
    constructor therefore appends a second slash, and the URLs built from
    this client start with ["//api/content/"]. *)
Theorem Client_root_url :
  endsWithSlash "/"
  ∧ endsWithForwardSlash "/" = false
  ∧ serverUrl (Client "/" None) = "//"
  ∧ apiUrl (Client "/" None) = "//api/content/"
  ∧ requestToUrl (Client "/" None) {[ "ids" := Arr [JsNumber 29; JsNumber 30] ]}
    = Normal "//api/content/byids/29/30".
Proof.
  split_and!; [by exists "" | by vm_compute..].
Qed.

(** * Further properties *)

(** ** The constructor *)

(** X1. [endsWithForwardSlash] answers yes exactly for the strings that end
    with a slash preceded by a character that is no line terminator. *)
Theorem endsWithForwardSlash_iff (input : string) :
  endsWithForwardSlash input = true
  ↔ ∃ pre c, input = pre +:+ String c "/" ∧ RegExp.isLineTerminator c = false.
Proof. apply endsWithForwardSlash_true. Qed.

(** X2. Whatever URL and options the client is built with, its [serverUrl]
    ends with a slash, starts with the URL given, and its [apiUrl] is
    [serverUrl] followed by [api/content/]. *)
Theorem Client_invariant (url : string) (opts : option Options) :
  endsWithSlash (serverUrl (Client url opts))
  ∧ (serverUrl (Client url opts) = url ∨ serverUrl (Client url opts) = url +:+ "/")
  ∧ apiUrl (Client url opts) = serverUrl (Client url opts) +:+ "api/content/".
Proof.
  destruct (Client_urls url opts) as [Hs Ha]. split_and!; [done| |done].
  simpl. destruct (endsWithForwardSlash url); [left | by right].
  apply append_empty_r.
Qed.

(** X3. A server URL written with its final slash and the same URL written
    without it give clients with the same [serverUrl] and [apiUrl], hence
    the same request URLs. *)
Theorem Client_trailing_slash (base : string) (c : ascii)
    (opts : option Options) (request : gmap string JsVal) :
  RegExp.isLineTerminator c = false →
  c ≠ "/"%char →
  serverUrl (Client (base +:+ String c "") opts)
    = serverUrl (Client (base +:+ String c "/") opts)
  ∧ apiUrl (Client (base +:+ String c "") opts)
    = apiUrl (Client (base +:+ String c "/") opts)
  ∧ requestToUrl (Client (base +:+ String c "") opts) request
    = requestToUrl (Client (base +:+ String c "/") opts) request.
Proof.
  intros Hc Hslash.
  assert (Hs : serverUrl (Client (base +:+ String c "") opts)
               = serverUrl (Client (base +:+ String c "/") opts)).
  { rewrite Client_keeps by done. rewrite Client_appends.
    - by rewrite append_assoc.
    - intros [b Hb]. by apply append_last_inj in Hb. }
  assert (Ha : apiUrl (Client (base +:+ String c "") opts)
               = apiUrl (Client (base +:+ String c "/") opts)).
  { destruct (Client_urls (base +:+ String c "") opts) as [_ ->].
    destruct (Client_urls (base +:+ String c "/") opts) as [_ ->].
    by rewrite Hs. }
  split_and!; [done | done |]. unfold requestToUrl. by rewrite Ha.
Qed.

Lemma Client_trailing_slash_witness :
  RegExp.isLineTerminator "9" = false
  ∧ "9"%char ≠ "/"%char
  ∧ apiUrl (Client "http://localhost:2999" None)
    = apiUrl (Client "http://localhost:2999/" None).
Proof.
  split_and!; [done | done |].
  exact (proj1 (proj2 (Client_trailing_slash "http://localhost:299" "9" None ∅
                         eq_refl ltac:(discriminate)))).
Defined.

(** X4. Normalising twice is normalising once when the URL given is not
    empty and does not end with a line terminator: the [serverUrl] of a
    client, passed to the constructor again, comes back unchanged.  (For the
    empty URL it does not: ["/"] becomes ["//"].) *)
Theorem Client_stable (base : string) (c : ascii) (opts opts' : option Options) :
  RegExp.isLineTerminator c = false →
  serverUrl (Client (serverUrl (Client (base +:+ String c "") opts)) opts')
    = serverUrl (Client (base +:+ String c "") opts)
  ∧ serverUrl (Client (serverUrl (Client "" opts)) opts')
    ≠ serverUrl (Client "" opts).
Proof.
  intros Hc. split; [|by vm_compute].
  destruct (decide (c = "/"%char)) as [->|Hslash].
  - destruct (endsWithForwardSlash (base +:+ "/")) eqn:E.
    + apply endsWithForwardSlash_true in E as (pre & d & E & Hd).
      assert (Hs : serverUrl (Client (base +:+ "/") opts) = pre +:+ String d "/").
      { rewrite E. by apply Client_keeps. }
      rewrite Hs. by apply Client_keeps.
    + assert (Hs : serverUrl (Client (base +:+ "/") opts) = base +:+ String "/" "/").
      { simpl. rewrite E. by rewrite append_assoc. }
      rewrite Hs. by apply Client_keeps.
  - assert (Hs : serverUrl (Client (base +:+ String c "") opts) = base +:+ String c "/").
    { rewrite Client_appends; [by rewrite append_assoc|].
      intros [b Hb]. by apply append_last_inj in Hb. }
    rewrite Hs. by apply Client_keeps.
Qed.

Lemma Client_stable_witness :
  RegExp.isLineTerminator "/" = false
  ∧ serverUrl (Client (serverUrl (Client "/" None)) None) = serverUrl (Client "/" None).
Proof.
  split; [done|]. exact (proj1 (Client_stable "" "/" None None eq_refl)).
Defined.

(** ** Every outcome of [requestToUrl] *)

Lemma presentKeys_cases (request : gmap string JsVal) :
  presentKeys request = [] ∨ presentKeys request = ["ids"]
  ∨ presentKeys request = ["names"] ∨ presentKeys request = ["tags"]
  ∨ (1 < length (presentKeys request))%nat.
Proof.
  rewrite presentKeys_lookup.
  destruct (request !! "ids"), (request !! "names"), (request !! "tags");
    simpl; auto 6 with lia.
Qed.



(** ** Reading a URL back *)

Lemma noSlash_cons_slash s : noSlash (String "/" s) = false.
Proof. done. Qed.

(** A slash-free string followed by nothing or by a slash determines
    itself. *)
Lemma noSlash_prefix_inj x y r1 r2 :
  noSlash x = true → noSlash y = true →
  (r1 = "" ∨ ∃ t, r1 = String "/" t) →
  (r2 = "" ∨ ∃ t, r2 = String "/" t) →
  x +:+ r1 = y +:+ r2 → x = y ∧ r1 = r2.
Proof.
  revert y. induction x as [|a x IH]; intros [|b y] Hx Hy H1 H2;
    rewrite ?append_cons, ?append_empty_l.
  - done.
  - intros ->. destruct H1 as [[=] | [t [= -> _]]]. done.
  - intros <-. destruct H2 as [[=] | [t [= -> _]]]. done.
  - intros [= -> H]. simpl in Hx, Hy.
    apply andb_true_iff in Hx as [_ Hx]. apply andb_true_iff in Hy as [_ Hy].
    destruct (IH y Hx Hy H1 H2 H) as [-> ->]. done.
Qed.

Lemma separated_shape l : separated "/" l = "" ∨ ∃ t, separated "/" l = String "/" t.
Proof. destruct l; [by left | right; by eexists]. Qed.

Lemma separated_inj l1 l2 :
  Forall (λ s, noSlash s = true) l1 → Forall (λ s, noSlash s = true) l2 →
  separated "/" l1 = separated "/" l2 → l1 = l2.
Proof.
  intros H1. revert l2. induction H1 as [|x l1 Hx H1 IH]; intros l2 H2.
  - by destruct l2.
  - destruct H2 as [|y l2 Hy H2]; [done|]. simpl.
    rewrite !append_cons, !append_empty_l. intros [= H].
    apply noSlash_prefix_inj in H as [-> H]; [|done|done|apply separated_shape..].
    f_equal. by apply IH.
Qed.

Lemma concat_slash_inj l1 l2 :
  l1 ≠ [] → l2 ≠ [] →
  Forall (λ s, noSlash s = true) l1 → Forall (λ s, noSlash s = true) l2 →
  String.concat "/" l1 = String.concat "/" l2 → l1 = l2.
Proof.
  destruct l1 as [|x l1], l2 as [|y l2]; [done..|]. intros _ _ H1 H2.
  rewrite !concat_separated. intros H.
  apply Forall_cons in H1 as [Hx H1]. apply Forall_cons in H2 as [Hy H2].
  apply noSlash_prefix_inj in H as [-> H]; [|done|done|apply separated_shape..].
  f_equal. by apply separated_inj.
Qed.

Lemma noSlash_pretty_N_go x s : noSlash s = true → noSlash (pretty_N_go x s) = true.
Proof.
  revert s. induction (N.lt_wf_0 x) as [x _ IH]; intros s Hs.
  destruct (decide (x = 0%N)) as [->|Hx]; [by rewrite pretty_N_go_0|].
  rewrite pretty_N_go_step by lia. apply IH; [apply N.div_lt; lia|].
  simpl. rewrite Hs, andb_true_r. unfold pretty_N_char. by repeat case_match.
Qed.

Lemma noSlash_pretty_Z (z : Z) : noSlash (pretty z) = true.
Proof.
  destruct z as [|p|p]; [done|..].
  - change (noSlash (pretty_N_go (N.pos p) "") = true).
    by apply noSlash_pretty_N_go.
  - change (noSlash (String "-" (pretty_N_go (N.pos p) "")) = true).
    simpl. by apply noSlash_pretty_N_go.
Qed.

(** Identifiers always give a slash-free path. *)
Lemma readable_Ids ids : ids ≠ [] → readable (Ids ids).
Proof.
  intros H. split; simpl.
  - by destruct ids.
  - apply Forall_fmap, Forall_forall. intros z _. apply noSlash_pretty_Z.
Qed.

(** X6. The URL tells the query: two requests that are queries of the data
    model, each with at least one element and no ["/"] inside a name or a
    tag, get the same URL from the same client only if they are the same
    query, of the same kind and with the same elements in the same order. *)
Theorem requestToUrl_injective (this : ClientObject)
    (request1 request2 : gmap string JsVal) (q1 q2 : Query) :
  denotes request1 q1 → denotes request2 q2 →
  readable q1 → readable q2 →
  requestToUrl this request1 = requestToUrl this request2 →
  q1 = q2.
Proof.
  intros Hq1 Hq2 [Hne1 Hs1] [Hne2 Hs2].
  rewrite (requestToUrl_denotes _ _ _ Hq1), (requestToUrl_denotes _ _ _ Hq2).
  intros [= H]. apply (inj (String.app (apiUrl this))) in H.
  destruct q1 as [l1|l1|l1], q2 as [l2|l2|l2]; simpl in *; try discriminate H;
    injection H as H; apply concat_slash_inj in H; try done.
  - f_equal. by apply (inj (fmap pretty)) in H.
  - by subst.
  - by subst.
Qed.

Lemma requestToUrl_injective_witness :
  let request : gmap string JsVal := {[ "ids" := Arr [JsNumber 29; JsNumber 30] ]} in
  denotes request (Ids [29; 30]) ∧ readable (Ids [29; 30])
  ∧ (requestToUrl (Client "http://h" None) request
       = requestToUrl (Client "http://h" None) request →
     Ids [29; 30] = Ids [29; 30]).
Proof.
  intros request.
  assert (Hq : denotes request (Ids [29; 30])).
  { split_and!; [by vm_compute | by vm_compute | repeat constructor; by vm_compute]. }
  assert (Hr : readable (Ids [29; 30])) by (by apply readable_Ids).
  split_and!; [exact Hq | exact Hr |].
  exact (requestToUrl_injective (Client "http://h" None) request request _ _ Hq Hq Hr Hr).
Defined.

(** X7. Nothing is escaped.  A name that holds a slash gives the URL of the
    two names around the slash, and an empty name gives the URL of no name
    at all. *)
Theorem requestToUrl_collisions (this : ClientObject) (a b : string) :
  requestToUrl this {[ "names" := Arr [JsString (a +:+ "/" +:+ b)] ]}
    = requestToUrl this {[ "names" := Arr [JsString a; JsString b] ]}
  ∧ requestToUrl this {[ "names" := Arr [JsString ""] ]}
    = requestToUrl this {[ "names" := Arr [] ]}.
Proof.
  split.
  - rewrite (requestToUrl_denotes this _ (Names [a +:+ "/" +:+ b])).
    + rewrite (requestToUrl_denotes this _ (Names [a; b])); [done|].
      split_and!; [by vm_compute | by rewrite lookup_singleton_eq | constructor].
    + split_and!; [by vm_compute | by rewrite lookup_singleton_eq | constructor].
  - rewrite (requestToUrl_denotes this _ (Names [""])).
    + rewrite (requestToUrl_denotes this _ (Names [])); [done|].
      split_and!; [by vm_compute | by rewrite lookup_singleton_eq | constructor].
    + split_and!; [by vm_compute | by rewrite lookup_singleton_eq | constructor].
Qed.

(** ** More on the lookups *)

Lemma enrich_Normal (σ σ' : Store) data r :
  enrichCollectionWithByMethods data σ = Normal (r, σ') →
  ∃ a, σ !! data = Some a ∧ r = data ∧ σ' = <[data := installed data a]> σ.
Proof.
  destruct (σ !! data) as [a|] eqn:E.
  - rewrite (enrich_installs _ _ _ E). intros [= <- <-]. by exists a.
  - by rewrite (enrich_not_object _ _ E).
Qed.

Lemma tags_callback_throws tag item :
  ¬ hasTags item →
  some (getProp item "tags") (λ t, Normal (strictEquals t tag)) = Throw TypeError.
Proof.
  unfold hasTags. destruct (getProp item "tags") as [p|l]; [done|].
  intros H. destruct H. by exists l.
Qed.

Lemma Array_filter_tags_throws tag (l : list (gmap string JsVal)) :
  Array_filter
    (λ item, some (getProp item "tags") (λ t, Normal (strictEquals t tag))) l
    = Throw TypeError
  ↔ ¬ Forall hasTags l.
Proof.
  induction l as [|x l IH]; simpl.
  - split; [done|]. intros H. destruct H. constructor.
  - destruct (decide (hasTags x)) as [Hx|Hx].
    + rewrite (tags_callback _ _ Hx). simpl.
      rewrite Forall_cons.
      destruct (Array_filter _ l) as [kept|[]] eqn:E; simpl.
      * split; [done|]. intros H.
        assert (Hl : ¬ Forall hasTags l) by tauto. by apply IH in Hl.
      * split; [done|]. intros H.
        assert (Hl : ¬ Forall hasTags l) by tauto. by apply IH in Hl.
      * split; [|done]. intros _. apply proj1 in IH. specialize (IH eq_refl). tauto.
    + rewrite (tags_callback_throws _ _ Hx). simpl.
      split; [|done]. intros _. rewrite Forall_cons. tauto.
Qed.

(** The state in which [byTag] answers, for any chunks with [tags]
    arrays. *)
Lemma invoke_byTag_filter (σ σ1 : Store) data a tag :
  σ !! data = Some a →
  enrichCollectionWithByMethods data σ = Normal (data, σ1) →
  Forall hasTags (elements a) →
  invoke σ1 data "byTag" tag = Normal (RArray (filter (taggedWith tag) (elements a))).
Proof.
  intros H Henrich Htags. pose proof (enriched_lookup _ _ _ _ H Henrich) as H1.
  rewrite (invoke_byTag _ _ _ H1) by apply installed_byTag.
  simpl. rewrite (Array_filter_decide _ (taggedWith tag)); [done|].
  intros item Hitem. apply tags_callback.
  by apply (proj1 (Forall_forall _ _) Htags).
Qed.

(** X8. On an enriched array, [byTag] throws a [TypeError] exactly when some
    chunk has no [tags] array, whatever tag is asked for, and returns an
    array otherwise.  [byId] and [byName] never throw, whatever the chunks
    hold. *)
Theorem lookups_throw (σ σ1 : Store) (data : Ref) (a : ArrayObject) :
  σ !! data = Some a →
  enrichCollectionWithByMethods data σ = Normal (data, σ1) →
  (∀ tag, invoke σ1 data "byTag" tag = Throw TypeError
          ↔ ¬ Forall hasTags (elements a))
  ∧ (∀ tag, (∃ l, invoke σ1 data "byTag" tag = Normal (RArray l))
            ↔ Forall hasTags (elements a))
  ∧ (∀ id, ∃ r, invoke σ1 data "byId" id = Normal r)
  ∧ (∀ name, ∃ r, invoke σ1 data "byName" name = Normal r).
Proof.
  intros H Henrich. pose proof (enriched_lookup _ _ _ _ H Henrich) as H1.
  assert (Hthrow : ∀ tag, invoke σ1 data "byTag" tag = Throw TypeError
                          ↔ ¬ Forall hasTags (elements a)).
  { intros tag. rewrite (invoke_byTag _ _ _ H1) by apply installed_byTag.
    rewrite <-(Array_filter_tags_throws tag). simpl.
    destruct (Array_filter _ _); simpl; split; intros; by simplify_eq. }
  split_and!.
  - exact Hthrow.
  - intros tag. split.
    + intros [l Hl]. destruct (decide (Forall hasTags (elements a))) as [|Hn];
        [done|]. apply Hthrow with (tag := tag) in Hn. congruence.
    + intros Htags. eexists. by apply (invoke_byTag_filter σ).
  - intros id. rewrite (invoke_byId _ _ _ H1) by apply installed_byId.
    destruct (Array_find_total (λ item, strictEqualsVal (getProp item "id") id)
                (elements (installed data a))) as [r ->]. by eexists.
  - intros name. rewrite (invoke_byName _ _ _ H1) by apply installed_byName.
    destruct (Array_find_total (λ item, strictEqualsVal (getProp item "name") name)
                (elements (installed data a))) as [r ->]. by eexists.
Qed.

Lemma lookups_throw_witness :
  let untagged : list (gmap string JsVal) :=
    [chunk 1 ["a"] "first" ""; {[ "id" := Prim (JsNumber 2) ]}] in
  let σ : Store := {[ 0%nat := {| elements := untagged; members := ∅ |} ]} in
  let σ1 : Store := {[ 0%nat := installed 0%nat {| elements := untagged; members := ∅ |} ]} in
  σ !! 0%nat = Some {| elements := untagged; members := ∅ |}
  ∧ enrichCollectionWithByMethods 0%nat σ = Normal (0%nat, σ1)
  ∧ invoke σ1 0%nat "byTag" (JsString "a") = Throw TypeError.
Proof.
  intros untagged σ σ1.
  assert (H : σ !! 0%nat = Some {| elements := untagged; members := ∅ |})
    by apply lookup_singleton_eq.
  assert (H1 : enrichCollectionWithByMethods 0%nat σ = Normal (0%nat, σ1)).
  { rewrite (enrich_installs _ _ _ H). subst σ σ1. by rewrite insert_singleton_eq. }
  split_and!; [exact H | exact H1 |].
  apply (proj1 (lookups_throw σ σ1 0%nat _ H H1)).
  intros Htags. apply Forall_cons in Htags as [_ Htags].
  apply Forall_cons in Htags as [[l Hl] _]. by vm_compute in Hl.
Defined.



(** ** Enriching one array and calling another *)

Lemma call_enriched (σ : Store) data a f arg :
  σ !! data = Some a →
  call (<[data := installed data a]> σ) f arg = call σ f arg.
Proof.
  intros H. destruct f as [d|d|d]; simpl; unfold byName, byId, byTag;
    (destruct (decide (d = data)) as [->|Hd];
     [by rewrite lookup_insert_eq, H | by rewrite lookup_insert_ne]).
Qed.

(** X10. Enriching an array changes no method call on any other object of
    the store, and on the array itself it changes no call of a method other
    than [byName], [byId] and [byTag]. *)
Theorem enrich_isolated (σ σ' : Store) (data obj : Ref) (name : string)
    (arg : JsPrim) :
  enrichCollectionWithByMethods data σ = Normal (data, σ') →
  obj ≠ data ∨ name ∉ ["byName"; "byId"; "byTag"] →
  invoke σ' obj name arg = invoke σ obj name arg.
Proof.
  intros (a & Ha & _ & ->)%enrich_Normal Hother. unfold invoke.
  destruct (decide (obj = data)) as [->|Hobj].
  - destruct Hother as [|Hname]; [done|].
    rewrite lookup_insert_eq, Ha, (installed_other _ _ _ Hname).
    destruct (members a !! name); [|done]. by apply call_enriched.
  - rewrite lookup_insert_ne by done.
    destruct (σ !! obj) as [b|]; [|done].
    destruct (members b !! name); [|done]. by apply call_enriched.
Qed.

(** Two arrays in one store, the first enriched; enriching the second leaves
    the first one's [byId] as it was. *)
Lemma enrich_isolated_witness :
  let other : ArrayObject := {| elements := [chunk 1 [] "one" ""]; members := ∅ |} in
  let σ : Store := <[ 1%nat := other ]> results in
  let σ' : Store := <[ 1%nat := installed 1%nat other ]> σ in
  enrichCollectionWithByMethods 1%nat σ = Normal (1%nat, σ')
  ∧ invoke σ' 0%nat "byId" (JsNumber 8) = invoke σ 0%nat "byId" (JsNumber 8).
Proof.
  intros other σ σ'.
  assert (H : enrichCollectionWithByMethods 1%nat σ = Normal (1%nat, σ')).
  { apply enrich_installs. subst σ. by rewrite lookup_insert_eq. }
  split; [exact H|].
  apply (enrich_isolated σ σ' 1%nat 0%nat "byId" (JsNumber 8) H). by left.
Defined.

(** ** Where the results come from *)

Lemma Array_filter_sublist {A} (callback : A → Completion bool) (l r : list A) :
  Array_filter callback l = Normal r → r `sublist_of` l.
Proof.
  revert r. induction l as [|x l IH]; intros r; simpl.
  - by intros [= <-].
  - destruct (callback x) as [b|]; simpl; [|done].
    destruct (Array_filter callback l) as [kept|]; simpl; [|done].
    intros [= <-]. destruct b; [apply sublist_skip | apply sublist_cons]; by apply IH.
Qed.

(** X11. The lookups hand back chunks of the array and nothing else.  A
    chunk returned by [byId] or [byName] is an element of the array; the
    array returned by [byTag] is a subsequence of it, so it keeps the order
    and repeats no element more often than the array does.  [byId] and
    [byName] never return an array, [byTag] never returns anything else. *)
Theorem lookups_return_elements (σ σ1 : Store) (data : Ref) (a : ArrayObject) :
  σ !! data = Some a →
  enrichCollectionWithByMethods data σ = Normal (data, σ1) →
  (∀ id c, invoke σ1 data "byId" id = Normal (RObject c) → c ∈ elements a)
  ∧ (∀ name c, invoke σ1 data "byName" name = Normal (RObject c) → c ∈ elements a)
  ∧ (∀ tag l, invoke σ1 data "byTag" tag = Normal (RArray l) →
              l `sublist_of` elements a)
  ∧ (∀ id l, invoke σ1 data "byId" id ≠ Normal (RArray l))
  ∧ (∀ name l, invoke σ1 data "byName" name ≠ Normal (RArray l))
  ∧ (∀ tag r, invoke σ1 data "byTag" tag = Normal r → ∃ l, r = RArray l).
Proof.
  intros H Henrich. pose proof (enriched_lookup _ _ _ _ H Henrich) as H1.
  assert (Hin : ∀ field v c, firstWith field v (elements a) c → c ∈ elements a).
  { intros field v c (pre & post & -> & _). apply elem_of_app; right; apply list_elem_of_here. }
  split_and!.
  - intros id c. rewrite (invoke_byId _ _ _ H1) by apply installed_byId.
    rewrite find_RObject. apply Hin.
  - intros name c. rewrite (invoke_byName _ _ _ H1) by apply installed_byName.
    rewrite find_RObject. apply Hin.
  - intros tag l. rewrite (invoke_byTag _ _ _ H1) by apply installed_byTag.
    simpl. destruct (Array_filter _ _) as [kept|] eqn:E; simpl; [|done].
    intros [= <-]. by apply (Array_filter_sublist _ _ _ E).
  - intros id l. rewrite (invoke_byId _ _ _ H1) by apply installed_byId.
    destruct (Array_find_total (λ item, strictEqualsVal (getProp item "id") id)
                (elements (installed data a))) as [[c|] ->]; done.
  - intros name l. rewrite (invoke_byName _ _ _ H1) by apply installed_byName.
    destruct (Array_find_total (λ item, strictEqualsVal (getProp item "name") name)
                (elements (installed data a))) as [[c|] ->]; done.
  - intros tag r. rewrite (invoke_byTag _ _ _ H1) by apply installed_byTag.
    simpl. destruct (Array_filter _ _) as [kept|]; simpl; [|done].
    intros [= <-]. by eexists.
Qed.

Lemma lookups_return_elements_witness :
  parsed !! 0%nat = Some {| elements := indexPage; members := ∅ |}
  ∧ enrichCollectionWithByMethods 0%nat parsed = Normal (0%nat, results)
  ∧ ∀ tag l, invoke results 0%nat "byTag" tag = Normal (RArray l) →
             l `sublist_of` indexPage.
Proof.
  split_and!; [exact parsed_lookup | exact parsed_enriched |].
  exact (proj1 (proj2 (proj2
    (lookups_return_elements parsed results 0%nat _ parsed_lookup parsed_enriched)))).
Defined.

(** X12. The lookups agree with each other: on an enriched array whose
    chunks each carry a [tags] array, the chunk [byId] or [byName] returns is
    among the chunks [byTag] returns for each of that chunk's tags. *)
Theorem byTag_contains_found (σ σ1 : Store) (data : Ref) (a : ArrayObject) :
  σ !! data = Some a →
  enrichCollectionWithByMethods data σ = Normal (data, σ1) →
  Forall hasTags (elements a) →
  ∀ method arg c tags tag,
    method = "byId" ∨ method = "byName" →
    invoke σ1 data method arg = Normal (RObject c) →
    getProp c "tags" = Arr tags → tag ∈ tags →
    ∃ l, invoke σ1 data "byTag" tag = Normal (RArray l) ∧ c ∈ l.
Proof.
  intros H Henrich Htags method arg c tags tag Hmethod Hfound Hc Htag.
  pose proof (enriched_lookup _ _ _ _ H Henrich) as H1.
  assert (Hin : c ∈ elements a).
  { destruct Hmethod as [-> | ->].
    - rewrite (invoke_byId _ _ _ H1) in Hfound by apply installed_byId.
      apply find_RObject in Hfound as (pre & post & Hsplit & _).
      simpl in Hsplit. rewrite Hsplit.
      apply elem_of_app; right; apply list_elem_of_here.
    - rewrite (invoke_byName _ _ _ H1) in Hfound by apply installed_byName.
      apply find_RObject in Hfound as (pre & post & Hsplit & _).
      simpl in Hsplit. rewrite Hsplit.
      apply elem_of_app; right; apply list_elem_of_here. }
  eexists. split; [by apply (invoke_byTag_filter σ)|].
  apply list_elem_of_filter. split; [|done].
  unfold taggedWith. by rewrite Hc.
Qed.

Lemma byTag_contains_found_witness :
  parsed !! 0%nat = Some {| elements := indexPage; members := ∅ |}
  ∧ enrichCollectionWithByMethods 0%nat parsed = Normal (0%nat, results)
  ∧ Forall hasTags indexPage
  ∧ ∃ l, invoke results 0%nat "byTag" (JsString "index-page") = Normal (RArray l)
         ∧ chunk 7 ["index-page"] "index-title" "This is a title" ∈ l.
Proof.
  split_and!; [exact parsed_lookup | exact parsed_enriched | exact indexPage_hasTags |].
  apply (byTag_contains_found parsed results 0%nat _ parsed_lookup parsed_enriched
           indexPage_hasTags "byName" (JsString "index-title") _
           [JsString "index-page"]).
  - by right.
  - by vm_compute.
  - by vm_compute.
  - apply list_elem_of_here.
Defined.

(** ** Strings, again *)

Lemma length_append s t :
  String.length (s +:+ t) = (String.length s + String.length t)%nat.
Proof. induction s as [|a s IH]; [done|]. rewrite append_cons. simpl. by rewrite IH. Qed.

Lemma substring_prefix s t : String.substring 0 (String.length s) (s +:+ t) = s.
Proof.
  induction s as [|a s IH].
  - by destruct t.
  - rewrite append_cons. simpl. by rewrite IH.
Qed.

Lemma slice_drop_last s c : Api.slice (s +:+ String c "") 0 (-1) = s.
Proof.
  unfold Api.slice. rewrite length_append. simpl String.length.
  set (n := String.length s).
  change (0 <? 0) with false. change (-1 <? 0) with true. cbv iota.
  replace (Z.min 0 (Z.of_nat (n + 1))) with 0 by lia.
  replace (Z.max (Z.max (Z.of_nat (n + 1) + -1) 0 - 0) 0) with (Z.of_nat n) by lia.
  rewrite Nat2Z.id. apply substring_prefix.
Qed.

Lemma append_eq_empty s t : s +:+ t = "" → s = "" ∧ t = "".
Proof. by destruct s. Qed.

(** ** Replacing the final slash *)

Section trailing.
Import RegExp.

Lemma matchLength_slash_end s :
  Api.matchLength [One (Lit "/"); EndOfInput] s
  = if decide (s = "/") then Some 1%nat else None.
Proof.
  destruct (decide (s = "/")) as [->|Hs]; [done|].
  destruct s as [|c [|d s]]; simpl; try done.
  - by destruct (Ascii.eqb_spec c "/") as [->|Hc].
  - by destruct (Ascii.eqb c "/").
Qed.

Lemma matchLength_more a p c s :
  Api.matchLength (OneOrMore a :: p) (String c s)
  = if atomMatches a c
    then match Api.matchLength (OneOrMore a :: p) s with
         | Some n => Some (S n)
         | None => S <$> Api.matchLength p s
         end
    else None.
Proof. reflexivity. Qed.

(** The two matchers agree on whether there is a match. *)
Lemma matchLength_matchHere p s :
  is_Some (Api.matchLength p s) ↔ matchHere p s = true.
Proof.
  revert s. induction p as [|[a|a|] p IH]; intros s.
  - simpl. split; [done | by eexists].
  - destruct s as [|c s]; simpl.
    + split; [by intros [? [=]] | done].
    + destruct (atomMatches a c); simpl.
      * rewrite <-IH. by rewrite fmap_is_Some.
      * split; [by intros [? [=]] | done].
  - induction s as [|c s IHs].
    + simpl. split; [by intros [? [=]] | done].
    + rewrite matchHere_more, matchLength_more.
      destruct (atomMatches a c); [rewrite andb_true_l | rewrite andb_false_l].
      * rewrite orb_true_iff, <-IHs, <-IH.
        destruct (Api.matchLength (OneOrMore a :: p) s) as [n|].
        -- split; [left; by eexists | by eexists].
        -- rewrite fmap_is_Some. split; [by right | by intros [[? [=]]|]].
      * split; [by intros [? [=]] | done].
  - destruct s as [|c s]; simpl.
    + apply IH.
    + split; [by intros [? [=]] | done].
Qed.

Lemma replace_trailing_slash s :
  Api.replace (s +:+ "/") [One (Lit "/"); EndOfInput] "" = s.
Proof.
  unfold Api.replace. induction s as [|c s IH].
  - done.
  - rewrite append_cons. cbn [Api.replaceFrom].
    rewrite matchLength_slash_end, decide_False.
    + by rewrite IH.
    + intros [= _ H]. by destruct s.
Qed.

Lemma replace_no_trailing_slash s :
  ¬ endsWithSlash s → Api.replace s [One (Lit "/"); EndOfInput] "" = s.
Proof.
  unfold Api.replace. induction s as [|c s IH]; intros Hs; [done|].
  cbn [Api.replaceFrom]. rewrite matchLength_slash_end.
  destruct (decide (String c s = "/")) as [E|_].
  - destruct Hs. exists "". by rewrite E.
  - rewrite IH; [done|]. intros [b ->]. apply Hs. by exists (String c b).
Qed.
End trailing.

(** ** [blackstarFetch] in full *)

Section blackstarFetch.
Import Api.
Context (this : ClientObject) (url : string) (opts : option RequestInit)
  (w : Browser).

Lemma blackstarFetch_without_token :
  tokenSupplied this = false →
  blackstarFetch this url opts w
  = (Returns (url, sent opts (givenHeaders opts)),
     {| fetched := fetched w ++ [(url, sent opts (givenHeaders opts))];
        cookies := cookies w |}).
Proof.
  unfold blackstarFetch, sent, givenHeaders. intros ->.
  destruct (token (options this)); by destruct opts.
Qed.

Lemma blackstarFetch_with_token t written :
  token (options this) = Some t → t ≠ "" → cookies w = Some written →
  blackstarFetch this url opts w
  = (Returns (url, sent opts (<[ "Authorization" := "Bearer " +:+ t ]> (givenHeaders opts))),
     {| fetched := fetched w ++
          [(url, sent opts (<[ "Authorization" := "Bearer " +:+ t ]> (givenHeaders opts)))];
        cookies := Some (written ++ ["t=" +:+ encodeURIComponent t]) |}).
Proof.
  intros Ht Hne Hw. unfold blackstarFetch, sent, givenHeaders, tokenSupplied.
  rewrite Ht, Hw. destruct t as [|c t]; [done|]. simpl Nat.ltb. cbv iota.
  unfold setItem. change (String.eqb "t" "" || isAttributeName "t") with false.
  cbv iota. change (encodeURIComponent "t") with "t". simpl sExpires.
  unfold attribute. rewrite !append_empty_r. by destruct opts.
Qed.

Lemma blackstarFetch_without_document :
  tokenSupplied this = true → cookies w = None →
  blackstarFetch this url opts w = (ThrowsReferenceError, w).
Proof.
  unfold blackstarFetch, tokenSupplied. intros Ht Hw. rewrite Hw.
  destruct (token (options this)) as [t|]; [|done].
  unfold tokenSupplied. rewrite Ht. unfold setItem.
  by change (String.eqb "t" "" || isAttributeName "t") with false.
Qed.

(** Where a token can be stored, the call reaches [fetch], with the URL
    given and the caller's method and body. *)
Lemma blackstarFetch_returns :
  canStoreToken this w →
  ∃ hdrs cookie,
    blackstarFetch this url opts w
    = (Returns (url, sent opts hdrs),
       {| fetched := fetched w ++ [(url, sent opts hdrs)]; cookies := cookie |}).
Proof.
  intros Hcan. destruct (tokenSupplied this) eqn:Ht.
  - destruct (Hcan Ht) as [written Hw].
    unfold tokenSupplied in Ht.
    destruct (token (options this)) as [t|] eqn:Etoken; [|done].
    assert (t ≠ "") by (by destruct t).
    rewrite (blackstarFetch_with_token t written) by done. by eexists _, _.
  - rewrite blackstarFetch_without_token by done. by eexists _, _.
Qed.
End blackstarFetch.

(** ** The URLs of the other methods *)

Lemma apiUrl_collection url opts :
  apiUrl (Client url opts) = (serverUrl (Client url opts) +:+ "api/content") +:+ "/".
Proof. destruct (Client_urls url opts) as [_ ->]. by rewrite append_assoc. Qed.

(** X13. [getAll] and [create] address the same URL, the collection: the
    [apiUrl] of the client without its final slash, that is [serverUrl]
    followed by [api/content].  [getAll] sends no method and no body,
    [create] a POST with the chunk as JSON. *)
Theorem collection_url (url : string) (opts : option Options)
    (chunk : gmap string JsVal) (w : Api.Browser) :
  canStoreToken (Client url opts) w →
  ∃ init1 w1 init2 w2,
    Api.getAll (Client url opts) w
      = (Api.Returns (serverUrl (Client url opts) +:+ "api/content", init1), w1)
    ∧ Api.create (Client url opts) chunk w
      = (Api.Returns (serverUrl (Client url opts) +:+ "api/content", init2), w2)
    ∧ Api.method init1 = None ∧ Api.body init1 = None
    ∧ Api.method init2 = Some "POST" ∧ Api.body init2 = Some (Api.Json chunk).
Proof.
  intros Hcan. unfold Api.getAll, Api.create, Api.post.
  rewrite !apiUrl_collection, slice_drop_last, replace_trailing_slash.
  destruct (blackstarFetch_returns (Client url opts)
              (serverUrl (Client url opts) +:+ "api/content") None w Hcan)
    as (h1 & c1 & ->).
  destruct (blackstarFetch_returns (Client url opts)
              (serverUrl (Client url opts) +:+ "api/content")
              (Some {| Api.method := Some "POST"; Api.body := Some (Api.Json chunk);
                       Api.headers := Some Api.jsonHeaders;
                       Api.credentials := None |}) w Hcan)
    as (h2 & c2 & ->).
  by eexists _, _, _, _.
Qed.

Lemma canStoreToken_page this : canStoreToken this page.
Proof. intros _. by eexists. Qed.

Lemma collection_url_witness :
  canStoreToken (Client "http://demo.blackstarcms.net" None) page
  ∧ ∃ init w,
      Api.getAll (Client "http://demo.blackstarcms.net" None) page
      = (Api.Returns ("http://demo.blackstarcms.net/api/content", init), w).
Proof.
  split; [apply canStoreToken_page|].
  destruct (collection_url "http://demo.blackstarcms.net" None ∅ page
              (canStoreToken_page _)) as (init1 & w1 & _ & _ & H & _).
  by exists init1, w1.
Defined.



(** ** The token *)

(** X15. A client with a non-empty token, in a page with a document: every
    call of [blackstarFetch] makes exactly one request, to the URL given,
    with the caller's method and body; the request carries
    [Authorization: Bearer <token>] whatever [Authorization] the caller
    supplied, and the caller's other headers unchanged; and the cookie
    [t=<token, URI-encoded>] is written once more. *)
Theorem blackstarFetch_authorizes (this : ClientObject) (url t : string)
    (opts : option Api.RequestInit) (w : Api.Browser) (written : list string) :
  token (options this) = Some t → t ≠ "" → Api.cookies w = Some written →
  ∃ init hdrs w',
    Api.blackstarFetch this url opts w = (Api.Returns (url, init), w')
    ∧ Api.fetched w' = Api.fetched w ++ [(url, init)]
    ∧ Api.cookies w' = Some (written ++ ["t=" +:+ Api.encodeURIComponent t])
    ∧ Api.method init = opts ≫= Api.method
    ∧ Api.body init = opts ≫= Api.body
    ∧ Api.headers init = Some hdrs
    ∧ hdrs !! "Authorization" = Some ("Bearer " +:+ t)
    ∧ ∀ key, key ≠ "Authorization" → hdrs !! key = givenHeaders opts !! key.
Proof.
  intros Ht Hne Hw.
  rewrite (blackstarFetch_with_token this url opts w t written) by done.
  eexists _, _, _. split_and!; try done.
  - by rewrite lookup_insert_eq.
  - intros key Hkey. by rewrite lookup_insert_ne.
Qed.

Lemma blackstarFetch_authorizes_witness :
  token (options (withToken "http://h" "9f7sd9f7sf")) = Some "9f7sd9f7sf"
  ∧ "9f7sd9f7sf" ≠ ""
  ∧ Api.cookies page = Some []
  ∧ ∃ init w',
      Api.delete (withToken "http://h" "9f7sd9f7sf") (Prim (JsNumber 7)) page
        = (Api.Returns ("http://h/api/content/7", init), w')
      ∧ Api.cookies w' = Some ["t=9f7sd9f7sf"].
Proof.
  split_and!; [done..|].
  destruct (blackstarFetch_authorizes (withToken "http://h" "9f7sd9f7sf")
              "http://h/api/content/7" "9f7sd9f7sf"
              (Some {| Api.method := Some "DELETE"; Api.body := None;
                       Api.headers := Some Api.jsonHeaders;
                       Api.credentials := None |})
              page [] eq_refl ltac:(discriminate) eq_refl)
    as (init & hdrs & w' & H & _ & Hc & _).
  exists init, w'. split; [exact H | exact Hc].
Defined.

(** X16. A client without a token, or with the empty string for one, adds
    no [Authorization] header and writes no cookie: the headers sent are the
    caller's, the cookies are untouched, and no document is needed.
    Credentials are [include] unless the caller set others. *)
Theorem blackstarFetch_anonymous (this : ClientObject) (url : string)
    (opts : option Api.RequestInit) (w : Api.Browser) :
  token (options this) = None ∨ token (options this) = Some "" →
  ∃ init w',
    Api.blackstarFetch this url opts w = (Api.Returns (url, init), w')
    ∧ Api.fetched w' = Api.fetched w ++ [(url, init)]
    ∧ Api.cookies w' = Api.cookies w
    ∧ Api.headers init = Some (givenHeaders opts)
    ∧ (opts ≫= Api.credentials = None → Api.credentials init = Some "include")
    ∧ (∀ c, c ≠ "" → opts ≫= Api.credentials = Some c →
            Api.credentials init = Some c).
Proof.
  intros Ht.
  assert (Hno : Api.tokenSupplied this = false).
  { unfold Api.tokenSupplied. by destruct Ht as [-> | ->]. }
  rewrite (blackstarFetch_without_token this url opts w Hno).
  eexists _, _. split_and!; try done.
  - simpl. by intros ->.
  - simpl. intros c Hc ->. destruct (String.eqb_spec c ""); done.
Qed.

Lemma blackstarFetch_anonymous_witness :
  (token (options (Client "http://demo.blackstarcms.net" None)) = None
   ∨ token (options (Client "http://demo.blackstarcms.net" None)) = Some "")
  ∧ ∃ init w',
      Api.getAllTags (Client "http://demo.blackstarcms.net" None) node
        = (Api.Returns ("http://demo.blackstarcms.net/api/tags", init), w')
      ∧ Api.cookies w' = None.
Proof.
  split; [by left|].
  destruct (blackstarFetch_anonymous (Client "http://demo.blackstarcms.net" None)
              "http://demo.blackstarcms.net/api/tags" None node (or_introl eq_refl))
    as (init & w' & H & _ & Hc & _).
  exists init, w'. split; [exact H | exact Hc].
Defined.

(** X17. A client with a non-empty token where there is no [document]:
    storing the cookie throws a [ReferenceError] before [fetch] is reached,
    so no method of the client makes a request. *)
Theorem token_without_document (this : ClientObject) (w : Api.Browser) :
  Api.tokenSupplied this = true → Api.cookies w = None →
  (∀ url opts, Api.blackstarFetch this url opts w = (Api.ThrowsReferenceError, w))
  ∧ Api.getAll this w = (Api.ThrowsReferenceError, w)
  ∧ Api.getAllTags this w = (Api.ThrowsReferenceError, w)
  ∧ (∀ chunk, Api.create this chunk w = (Api.ThrowsReferenceError, w))
  ∧ (∀ chunk, Api.update this chunk w = (Api.ThrowsReferenceError, w))
  ∧ (∀ id, Api.delete this id w = (Api.ThrowsReferenceError, w))
  ∧ (∀ query, Api.adminSearch this query w = (Api.ThrowsReferenceError, w))
  ∧ (∀ query, Api.mediaSearch this query w = (Api.ThrowsReferenceError, w))
  ∧ (∀ files, Api.createMedia this files w = (Api.ThrowsReferenceError, w))
  ∧ (∀ hash, Api.deleteMedia this hash w = (Api.ThrowsReferenceError, w)).
Proof.
  intros Ht Hw.
  split_and!; intros;
    by apply blackstarFetch_without_document.
Qed.

Lemma token_without_document_witness :
  Api.tokenSupplied (withToken "http://h" "9f7sd9f7sf") = true
  ∧ Api.cookies node = None
  ∧ Api.getAll (withToken "http://h" "9f7sd9f7sf") node = (Api.ThrowsReferenceError, node).
Proof.
  split_and!; [done..|].
  exact (proj1 (proj2 (token_without_document (withToken "http://h" "9f7sd9f7sf") node
                         eq_refl eq_refl))).
Defined.

(** X18. The transport of [get], which records the URL, the [Authorization]
    header and the credentials, says what [blackstarFetch] in full does when
    called with a URL alone: wherever the token can be stored, the request
    made has that URL, that [Authorization] header and no other header,
    those credentials, and neither method nor body. *)
Theorem blackstarFetch_agrees (this : ClientObject) (url : string)
    (w : Api.Browser) (network : list FetchCall) :
  canStoreToken this w →
  ∃ call init w',
    blackstarFetch this url network = (ResponseTo call, network ++ [call])
    ∧ Api.blackstarFetch this url None w = (Api.Returns (url, init), w')
    ∧ Api.fetched w' = Api.fetched w ++ [(url, init)]
    ∧ fetch_url call = url
    ∧ Api.headers init
      = Some (match fetch_authorization call with
              | Some a => {[ "Authorization" := a ]}
              | None => ∅
              end)
    ∧ Api.credentials init = Some (fetch_credentials call)
    ∧ Api.method init = None ∧ Api.body init = None.
Proof.
  intros Hcan. unfold blackstarFetch.
  match goal with |- context [ResponseTo ?c] => exists c end.
  fold (Api.tokenSupplied this).
  destruct (Api.tokenSupplied this) eqn:Ht.
  - destruct (Hcan Ht) as [written Hw]. unfold Api.tokenSupplied in Ht.
    destruct (token (options this)) as [t|] eqn:Etoken; [|done].
    assert (t ≠ "") by (by destruct t).
    rewrite (blackstarFetch_with_token this url None w t written) by done.
    by eexists _, _.
  - rewrite (blackstarFetch_without_token this url None w Ht).
    by eexists _, _.
Qed.

Lemma blackstarFetch_agrees_witness :
  canStoreToken (withToken "http://h" "9f7sd9f7sf") page
  ∧ ∃ call, blackstarFetch (withToken "http://h" "9f7sd9f7sf") "http://h/api/tags" []
            = (ResponseTo call, [call])
            ∧ fetch_authorization call = Some "Bearer 9f7sd9f7sf".
Proof.
  split; [apply canStoreToken_page|].
  destruct (blackstarFetch_agrees (withToken "http://h" "9f7sd9f7sf")
              "http://h/api/tags" page [] (canStoreToken_page _))
    as (call & init & w' & H & _).
  exists call. split; [exact H|]. by injection H as <- _.
Defined.

(** ** Cookies *)

Lemma isAttributeName_upper sKey :
  Api.isAttributeName sKey = true
  ↔ Api.upperCase sKey ∈ ["EXPIRES"; "MAX-AGE"; "PATH"; "DOMAIN"; "SECURE"].
Proof.
  unfold Api.isAttributeName. cbn [existsb].
  change (Api.upperCase "expires") with "EXPIRES".
  change (Api.upperCase "max-age") with "MAX-AGE".
  change (Api.upperCase "path") with "PATH".
  change (Api.upperCase "domain") with "DOMAIN".
  change (Api.upperCase "secure") with "SECURE".
  rewrite !orb_true_iff, !String.eqb_eq, !elem_of_cons, elem_of_nil.
  split.
  - intros [?|[?|[?|[?|[?|?]]]]]; auto 10. discriminate.
  - intros [?|[?|[?|[?|[?|[]]]]]]; auto 10.
Qed.

Lemma refused_test sKey :
  String.eqb sKey "" || Api.isAttributeName sKey = true ↔ refused sKey.
Proof.
  unfold refused. by rewrite orb_true_iff, String.eqb_eq, isAttributeName_upper.
Qed.

(** X19. [docCookies.setItem] refuses a key exactly when it is empty or is,
    in any mix of upper and lower case, one of [expires], [max-age], [path],
    [domain], [secure]: it then returns [false] and writes nothing, whether
    there is a document or not.  Any other key needs the document: without
    one the call throws a [ReferenceError]; with one it returns [true] and
    assigns one string to [document.cookie], which starts with the encoded
    key, [=] and the encoded value. *)
Theorem setItem_outcomes (sKey sValue : string) (vEnd : Api.Expiry)
    (sPath sDomain : option string) (bSecure : bool)
    (cookie : option (list string)) :
  let result := Api.setItem sKey sValue vEnd sPath sDomain bSecure cookie in
  (result.1 = Api.Returns false ↔ refused sKey)
  ∧ (refused sKey → result.2 = cookie)
  ∧ (result.1 = Api.ThrowsReferenceError ↔ ¬ refused sKey ∧ cookie = None)
  ∧ (result.1 = Api.Returns true ↔ ¬ refused sKey ∧ is_Some cookie)
  ∧ (∀ written, ¬ refused sKey → cookie = Some written →
       ∃ attributes,
         result.2 = Some (written ++
           [Api.encodeURIComponent sKey +:+ "=" +:+ Api.encodeURIComponent sValue
              +:+ attributes]))
  ∧ refused "Max-Age" ∧ ¬ refused "t".
Proof.
  intros result. subst result.
  assert (Hmax : refused "Max-Age").
  { right. vm_compute. apply list_elem_of_further, list_elem_of_here. }
  assert (Ht : ¬ refused "t").
  { intros H. apply refused_test in H. by vm_compute in H. }
  unfold Api.setItem. pose proof (refused_test sKey) as Htest.
  destruct (String.eqb sKey "" || Api.isAttributeName sKey) eqn:E.
  - assert (Hr : refused sKey) by (by apply Htest).
    split_and!; simpl; [done | done | | | | done | done].
    + split; [discriminate | by intros [Hn _]].
    + split; [discriminate | by intros [Hn _]].
    + by intros written Hn.
  - assert (Hr : ¬ refused sKey).
    { intros H. apply Htest in H. discriminate H. }
    destruct cookie as [written|]; simpl;
      (split_and!; [| | | | | done | done]).
    + split; [discriminate | done].
    + done.
    + split; [discriminate | by intros [_ [=]]].
    + split; [|done]. intros _. split; [done | by eexists].
    + intros w' _ [= <-]. by eexists.
    + split; [discriminate | done].
    + done.
    + done.
    + split; [discriminate | by intros [_ [? [=]]]].
    + by intros w' _ [=].
Qed.

Lemma allChars_append P s t :
  allChars P (s +:+ t) = allChars P s && allChars P t.
Proof.
  induction s as [|c s IH]; [done|].
  rewrite append_cons. simpl. by rewrite IH, andb_assoc.
Qed.

Lemma encodeUnit_safe c : allChars cookieSafe (Api.encodeUnit c) = true.
Proof. destruct c as [[] [] [] [] [] [] [] []]; by vm_compute. Qed.

Lemma encodeURIComponent_safe s :
  allChars cookieSafe (Api.encodeURIComponent s) = true.
Proof.
  induction s as [|c s IH]; [done|]. simpl.
  by rewrite allChars_append, encodeUnit_safe, IH.
Qed.

Lemma encodeURIComponent_unreserved s :
  allChars Api.unreserved s = true → Api.encodeURIComponent s = s.
Proof.
  induction s as [|c s IH]; [done|]. simpl.
  intros [Hc Hs]%andb_true_iff. unfold Api.encodeUnit.
  by rewrite Hc, IH.
Qed.

Lemma cookieSafe_separators c :
  cookieSafe c = true → c ∉ [";"; "="; ","; " "; "009"; "010"; "013"]%char.
Proof.
  intros Hc Hin. repeat (apply elem_of_cons in Hin as [-> | Hin]);
    try (by vm_compute in Hc). by apply elem_of_nil in Hin.
Qed.

(** X20. What [setItem] stores cannot break out of its cookie: with no
    expiry, path, domain or secure flag given, the string assigned to
    [document.cookie] is a name, [=] and a value in which every character is
    a letter, a digit, one of [- _ . ! ~ * ' ( )] or [%], so that neither
    holds [;], [=], [,], a blank or a line break.  A value made of
    unreserved characters only is stored as it is. *)
Theorem setItem_safe (sKey sValue : string) (written : list string) :
  ¬ refused sKey →
  ∃ name value,
    Api.setItem sKey sValue Api.NoExpiry None None false (Some written)
      = (Api.Returns true, Some (written ++ [name +:+ "=" +:+ value]))
    ∧ allChars cookieSafe name = true
    ∧ allChars cookieSafe value = true
    ∧ (∀ c, cookieSafe c = true → c ∉ [";"; "="; ","; " "; "009"; "010"; "013"]%char)
    ∧ (allChars Api.unreserved sValue = true → value = sValue).
Proof.
  intros Hr. exists (Api.encodeURIComponent sKey), (Api.encodeURIComponent sValue).
  split_and!.
  - unfold Api.setItem.
    destruct (String.eqb sKey "" || Api.isAttributeName sKey) eqn:E.
    { by apply refused_test in E. }
    simpl. by rewrite !append_empty_r.
  - apply encodeURIComponent_safe.
  - apply encodeURIComponent_safe.
  - apply cookieSafe_separators.
  - apply encodeURIComponent_unreserved.
Qed.

Example setItem_escapes :
  Api.setItem "t" "a b;c=d" Api.NoExpiry None None false (Some [])
  = (Api.Returns true, Some ["t=a%20b%3Bc%3Dd"]).
Proof. by vm_compute. Qed.

Lemma setItem_safe_witness :
  ¬ refused "t"
  ∧ ∃ name value,
      Api.setItem "t" "a b;c=d" Api.NoExpiry None None false (Some [])
        = (Api.Returns true, Some [name +:+ "=" +:+ value])
      ∧ allChars cookieSafe value = true.
Proof.
  assert (Ht : ¬ refused "t").
  { intros H. apply refused_test in H. by vm_compute in H. }
  split; [exact Ht|].
  destruct (setItem_safe "t" "a b;c=d" [] Ht) as (name & value & H & _ & Hv & _).
  exists name, value. split; [exact H | exact Hv].
Defined.

(** ** The form of [createMedia] *)

Lemma append_inj_suffix s1 s2 t1 t2 :
  String.length t1 = String.length t2 →
  s1 +:+ t1 = s2 +:+ t2 → s1 = s2 ∧ t1 = t2.
Proof.
  revert s2. induction s1 as [|a s1 IH]; intros [|b s2] Hlen;
    rewrite ?append_cons, ?append_empty_l.
  - done.
  - intros ->. simpl in Hlen. rewrite length_append in Hlen. lia.
  - intros <-. simpl in Hlen. rewrite length_append in Hlen. lia.
  - intros [= -> H]. by destruct (IH s2 Hlen H) as [-> ->].
Qed.

Lemma suffix_clash s1 s2 mid t1 t2 :
  String.length t1 = String.length t2 → t1 ≠ t2 →
  s1 +:+ t1 ≠ s2 +:+ (mid +:+ t2).
Proof.
  intros Hlen Hne. rewrite <-append_assoc.
  intros [_ H]%append_inj_suffix; done.
Qed.

(** The name of an entry tells the index and the field. *)
Lemma fileEntries_names_inj i j file1 file2 a b x y :
  fileEntries i file1 !! a = Some x → fileEntries j file2 !! b = Some y →
  x.1 = y.1 → i = j ∧ a = b.
Proof.
  unfold fileEntries. intros Ha Hb Hxy.
  destruct a as [|[|[|a]]], b as [|[|[|b]]]; simplify_eq/=;
    try (apply append_inj_suffix in Hxy as [Hi _]; [|done];
         by apply (inj pretty) in Hi);
    exfalso.
  - by apply (suffix_clash (pretty i) (pretty j) "file" "file" "name") in Hxy.
  - by apply (suffix_clash (pretty i) (pretty j) "" "file" "type") in Hxy.
  - symmetry in Hxy.
    by apply (suffix_clash (pretty j) (pretty i) "file" "file" "name") in Hxy.
  - symmetry in Hxy.
    by apply (suffix_clash (pretty j) (pretty i) "file" "type" "name") in Hxy.
  - by apply (suffix_clash (pretty i) (pretty j) "" "type" "file") in Hxy.
  - by apply (suffix_clash (pretty i) (pretty j) "file" "type" "name") in Hxy.
Qed.

Lemma appendFiles_join i files data :
  Api.appendFiles i files data
  = data ++ mjoin (imap (λ k, fileEntries (i + k)) files).
Proof.
  revert i data. induction files as [|file files IH]; intros i data; simpl.
  - by rewrite app_nil_r.
  - rewrite IH, <-app_assoc. f_equal. rewrite Nat.add_0_r.
    change (fileEntries i file ++
              mjoin (imap (λ k, fileEntries (S i + k)) files)
            = fileEntries i file ++
              mjoin (imap ((λ k, fileEntries (i + k)) ∘ S) files)).
    do 2 f_equal. apply imap_ext. intros k x _. simpl. f_equal. lia.
Qed.

Lemma fileEntries_length (files : list Api.File) :
  Forall (λ l : list (string * Api.FormValue), length l = 3%nat)
         (imap (λ k, fileEntries k) files).
Proof.
  apply Forall_forall. intros l [k [file [-> _]]]%elem_of_lookup_imap. done.
Qed.

(** X21. [createMedia] posts a form to [serverUrl] followed by [api/media],
    without a [Content-Type] header of its own.  The form holds three
    entries for each file, in the order of the files: the file under
    [<index>file], its name under [<index>filename], its type under
    [<index>type].  No two entries of the form have the same name. *)
Theorem createMedia_form (this : ClientObject) (files : list Api.File)
    (w : Api.Browser) :
  canStoreToken this w →
  ∃ init hdrs w' entries,
    Api.createMedia this files w
      = (Api.Returns (serverUrl this +:+ "api/media", init), w')
    ∧ Api.method init = Some "POST"
    ∧ Api.headers init = Some hdrs ∧ hdrs !! "Content-Type" = None
    ∧ Api.body init = Some (Api.Form entries)
    ∧ length entries = (3 * length files)%nat
    ∧ NoDup entries.*1
    ∧ ∀ i file, files !! i = Some file →
        entries !! (3 * i)%nat = Some (pretty i +:+ "file", Api.FormFile file)
        ∧ entries !! (3 * i + 1)%nat
          = Some (pretty i +:+ "filename", Api.FormText (Api.file_name file))
        ∧ entries !! (3 * i + 2)%nat
          = Some (pretty i +:+ "type", Api.FormText (Api.file_type file)).
Proof.
  intros Hcan. unfold Api.createMedia.
  rewrite appendFiles_join, app_nil_l.
  set (entries := mjoin (imap (λ k, fileEntries (0 + k)) files)).
  assert (Hlookup : ∀ i x, entries !! i = Some x
            ↔ ∃ j l i', imap (λ k, fileEntries k) files !! j = Some l
                        ∧ l !! i' = Some x ∧ i = (j * 3 + i')%nat).
  { intros i x. apply join_lookup_Some_same_length, fileEntries_length. }
  assert (Hhdrs : ∃ init hdrs w',
    Api.blackstarFetch this (serverUrl this +:+ "api/media")
      (Some {| Api.method := Some "POST"; Api.body := Some (Api.Form entries);
               Api.headers := None; Api.credentials := None |}) w
      = (Api.Returns (serverUrl this +:+ "api/media", init), w')
    ∧ Api.method init = Some "POST"
    ∧ Api.headers init = Some hdrs ∧ hdrs !! "Content-Type" = None
    ∧ Api.body init = Some (Api.Form entries)).
  { destruct (Api.tokenSupplied this) eqn:Ht.
    - destruct (Hcan Ht) as [written Hw]. unfold Api.tokenSupplied in Ht.
      destruct (token (options this)) as [t|] eqn:Etoken; [|done].
      assert (t ≠ "") by (by destruct t).
      rewrite (blackstarFetch_with_token this _ _ w t written) by done.
      eexists _, _, _. split_and!; try done; by rewrite lookup_insert_ne.
    - rewrite (blackstarFetch_without_token this _ _ w Ht).
      eexists _, _, _. split_and!; done. }
  destruct Hhdrs as (init & hdrs & w' & -> & Hm & Hh & Hct & Hb).
  exists init, hdrs, w', entries. split_and!; try done.
  - subst entries. rewrite length_join.
    rewrite (sum_list_fmap_same 3) by apply fileEntries_length.
    by rewrite length_imap, Nat.mul_comm.
  - apply NoDup_alt. intros a b key.
    rewrite !list_lookup_fmap, !fmap_Some.
    intros (x & Hx & ->) (y & Hy & Hxy).
    apply Hlookup in Hx as (ja & la & ia & Hla & Hia & ->).
    apply Hlookup in Hy as (jb & lb & ib & Hlb & Hib & ->).
    apply list_lookup_imap_Some in Hla as (fa & _ & ->).
    apply list_lookup_imap_Some in Hlb as (fb & _ & ->).
    by destruct (fileEntries_names_inj _ _ _ _ _ _ _ _ Hia Hib Hxy) as [-> ->].
  - intros i file Hfile.
    assert (Hl : imap (λ k, fileEntries k) files !! i = Some (fileEntries i file)).
    { rewrite list_lookup_imap, Hfile. done. }
    split_and!; apply Hlookup.
    + exists i, (fileEntries i file), 0%nat. split_and!; [done..|lia].
    + exists i, (fileEntries i file), 1%nat. split_and!; [done..|lia].
    + exists i, (fileEntries i file), 2%nat. split_and!; [done..|lia].
Qed.

Lemma createMedia_form_witness :
  canStoreToken (Client "http://h" None) page
  ∧ ∃ init w',
      Api.createMedia (Client "http://h" None)
        [ {| Api.file_name := "a.png"; Api.file_type := "image/png";
             Api.file_bytes := "" |} ] page
      = (Api.Returns ("http://h/api/media", init), w').
Proof.
  split; [apply canStoreToken_page|].
  destruct (createMedia_form (Client "http://h" None)
              [ {| Api.file_name := "a.png"; Api.file_type := "image/png";
                   Api.file_bytes := "" |} ] page (canStoreToken_page _))
    as (init & hdrs & w' & entries & H & _).
  by exists init, w'.
Defined.

(** ** [JsdocOptions] *)

Lemma jsdocDefaults_html : jsdocDefaults !! "html" = Some (Prim JsUndefined).
Proof. by vm_compute. Qed.

(** X22. The object [new JsdocOptions(options)] builds.  When the [html]
    given is true, [html] is removed and [configure] is the path of
    [html-conf.json], whatever [configure] was given; every other key given
    keeps its value.  Otherwise, without an [html] or with a false one, the
    object holds every key given with its value, [html] included, and the
    default for every key not given: an empty array for [files],
    [undefined] for the rest. *)
Theorem JsdocOptions_html (htmlConf : string) (options : gmap string JsVal) :
  let this := JsdocOptions htmlConf (Some options) in
  (toBoolean (getProp options "html") = true →
     this !! "html" = None
     ∧ this !! "configure" = Some (Prim (JsString htmlConf))
     ∧ ∀ key v, key ≠ "html" → key ≠ "configure" → options !! key = Some v →
                this !! key = Some v)
  ∧ (toBoolean (getProp options "html") = false →
     (∀ key v, options !! key = Some v → this !! key = Some v)
     ∧ (∀ key, options !! key = None → this !! key = jsdocDefaults !! key)
     ∧ is_Some (this !! "html"))
  ∧ (options !! "files" = None → this !! "files" = Some (Arr []))
  ∧ JsdocOptions htmlConf None = jsdocDefaults.
Proof.
  intros this. subst this. unfold JsdocOptions. simpl default.
  assert (Hhtml : getProp (options ∪ jsdocDefaults) "html" = getProp options "html").
  { unfold getProp. rewrite lookup_union.
    destruct (options !! "html") as [v|]; [done|]. by rewrite jsdocDefaults_html. }
  rewrite Hhtml. split_and!.
  - intros ->. split_and!.
    + by rewrite lookup_delete_eq.
    + rewrite lookup_delete_ne by done. by rewrite lookup_insert_eq.
    + intros key v H1 H2 Hkey.
      rewrite lookup_delete_ne, lookup_insert_ne by done.
      by apply lookup_union_Some_l.
  - intros ->. split_and!.
    + intros key v Hkey. by apply lookup_union_Some_l.
    + intros key Hkey. by apply lookup_union_r.
    + rewrite lookup_union, jsdocDefaults_html.
      destruct (options !! "html"); by eexists.
  - intros Hfiles.
    assert (Hf : (options ∪ jsdocDefaults) !! "files" = Some (Arr [])).
    { by rewrite lookup_union_r. }
    destruct (toBoolean (getProp options "html")); [|done].
    by rewrite lookup_delete_ne, lookup_insert_ne.
  - rewrite (left_id ∅ (∪)). unfold getProp. by rewrite jsdocDefaults_html.
Qed.
